(** * The variation operator of the MAP-Elites optimiser

    A shallow embedding of [map_elites/variation.py]: the
    [VariationOperator] object, its event handlers, the batched genetic
    pipeline ([evo], [batch_crossover], [batch_mutation]) and the two
    operators the class defines ([iso_dd], [gaussian_mutation]).

    Conventions of the model
    - Python [int] is [Z] (unbounded), policy keys and positions are [nat].
    - Tensor elements are rationals: the rounding of floating point is
      abstracted away, everything else (shapes, masks, clamping, the
      order in which samples are consumed) is kept.
    - Random generators are explicit streams of samples with a cursor;
      every draw reads fresh samples and advances the cursor.
    - A raised exception is the [Raise] result.
    - The periodic timer, [on_stop] and [flush] belong to the event loop
      runtime and are left out. *)

From Stdlib Require Import QArith Qminmax ZArith Lia String List.
From stdpp Require Import gmap strings list.

Local Open Scope nat_scope.

(** ** Exceptions and results *)

Inductive exception :=
| AttributeError
| IndexError
| KeyError
| ValueError
| RuntimeError
| OutsideModel.

Inductive result (A : Type) :=
| Ok (a : A)
| Raise (e : exception).
Arguments Ok {A} a.
Arguments Raise {A} e.

(** ** Tensors

    A tensor is its shape and its elements in row-major order, as a
    contiguous torch tensor stores them. *)

Record tensor := Tensor { shape : list nat; data : list Q }.

Definition numel (sh : list nat) : nat := foldr Nat.mul 1 sh.

Definition wf_tensor (t : tensor) : Prop := length (data t) = numel (shape t).

(** Row-major position of a multi-index, and the multi-index of a
    position ([torch.where] returns the latter, one array per dimension). *)
Fixpoint ravel (sh idx : list nat) : nat :=
  match sh, idx with
  | _ :: sh', i :: idx' => i * numel sh' + ravel sh' idx'
  | _, _ => 0
  end.

Fixpoint unravel (sh : list nat) (k : nat) : list nat :=
  match sh with
  | [] => []
  | _ :: sh' => (k / numel sh') :: unravel sh' (k mod numel sh')
  end.

(** [torch.clamp(z, lo, hi)] is [min(max(z, lo), hi)] on every element. *)
Definition clamp_elt (lo hi v : Q) : Q := Qmin (Qmax v lo) hi.

Definition torch_clamp (t : tensor) (lo hi : Q) : tensor :=
  Tensor (shape t) (map (clamp_elt lo hi) (data t)).

(** The clamp bounds [max_gene] and [min_gene] default to [False]; a
    configured bound is a number.  Python truthiness makes [False] and
    [0] falsy, and [False] counts as [0] where a number is expected. *)
Inductive gene_bound :=
| PyFalse
| PyNum (q : Q).

Definition truthy (b : gene_bound) : bool :=
  match b with
  | PyFalse => false
  | PyNum q => negb (Qeq_bool q 0)
  end.

Definition as_number (b : gene_bound) : Q :=
  match b with
  | PyFalse => 0%Q
  | PyNum q => q
  end.

(** ** Strings: the tensor-selection test *)

(** A non-empty [str] is truthy. *)
Definition str_truthy (s : string) : bool := negb (String.eqb s "").

(** [sub in s] on strings. *)
Definition str_in (sub s : string) : bool :=
  match index 0 sub s with
  | Some _ => true
  | None => false
  end.

(** ** Random generators *)

Record stream (A : Type) := Stream { sample : nat -> A; cursor : nat }.
Arguments Stream {A} sample cursor.
Arguments sample {A} s n.
Arguments cursor {A} s.

Definition draw {A} (n : nat) (s : stream A) : list A * stream A :=
  (map (sample s) (seq (cursor s) n), Stream (sample s) (cursor s + n)).

(** torch's generator yields standard normal and uniform [0,1) samples,
    numpy's global generator yields standard normal samples and the
    integers that drive [np.random.choice].  The order in which a Python
    [set] is iterated depends on hashes, table sizes and the history of
    the set: it is the last source of arbitrariness, a stream of
    proposals of an order for the elements of a set. *)
Record rng := Rng {
  torch_normal : stream Q;
  torch_uniform : stream Q;
  numpy_normal : stream Q;
  numpy_choice : stream nat;
  set_order : stream (list nat -> list nat)
}.

(** The elements of [X], once each, in the order proposed by [f]; a
    proposal that is not a duplicate-free listing of [X] is replaced by
    the canonical listing. *)
Definition arrange (f : list nat -> list nat) (X : gset nat) : list nat :=
  let l := f (elements X) in
  if bool_decide (NoDup l /\ (list_to_set l : gset nat) = X) then l
  else elements X.

(** ** Policies, configuration, signals and log *)

(** A state dict: parameter name to tensor, in insertion order. *)
Definition state_dict := list (string * tensor).

(** A policy is modelled by its named parameters. *)
Definition policy := state_dict.

Module Cfg.
Record t := Make {
  crossover_op : string;
  mutation_op : string;
  num_agents : Z;
  random_init : Z;
  random_init_batch : Z;
  eval_batch_size : Z;
  proportion_evo : Q;
  mutations_per_policy : Z
}.
End Cfg.

(** The keyword arguments of [__init__] kept as attributes. *)
Record hyperparams := Hyper {
  self_max : gene_bound;
  self_min : gene_bound;
  mutation_rate : Q;
  crossover_rate : Q;
  eta_m : Q;
  eta_c : Q;
  sigma : Q;
  max_uniform : Q;
  iso_sigma : Q;
  line_sigma : Q
}.

Definition default_hyperparams : hyperparams :=
  Hyper PyFalse PyFalse (5 # 100) (75 # 100) 5 10 (1 # 10) (1 # 10)
        (5 # 1000) (5 # 100).

Inductive signal :=
| to_evaluate (oid : nat) (flag : bool)
| stop (oid : nat).

Inductive level := Debug | Warn.

Inductive message :=
| Not_using_crossover
| Not_using_mutation
| Initializing_with_random_policies
| Mutating_from_elites
| Not_enough_free_policies (len_free_keys : nat) (batch_size : Z)
| Received_processed_agents (n : nat) (oid : nat) (queued : Z)
| Mutated_actors (n : nat).

(** ** The object *)

Record VariationOperator := VO {
  cfg : Cfg.t;
  all_actors : list policy;
  elites_map : gmap nat (nat * Q);
  object_id : nat;
  crossover_op : option string;     (* [None] is the [False] sentinel *)
  mutation_op : option string;
  hyper : hyperparams;
  eval_cache : list (list policy);
  eval_in_queue : list (list nat);
  free_policy_keys : gset nat;
  init_mode : bool;
  queued_for_eval : Z;
  signals : list signal;            (* emitted so far, oldest first *)
  log : list (level * message);     (* logged so far, oldest first *)
  gen : rng
}.

Definition set_eval_cache (c : list (list policy)) (s : VariationOperator) :=
  VO (cfg s) (all_actors s) (elites_map s) (object_id s) (crossover_op s)
     (mutation_op s) (hyper s) c (eval_in_queue s) (free_policy_keys s)
     (init_mode s) (queued_for_eval s) (signals s) (log s) (gen s).

Definition set_eval_in_queue (q : list (list nat)) (s : VariationOperator) :=
  VO (cfg s) (all_actors s) (elites_map s) (object_id s) (crossover_op s)
     (mutation_op s) (hyper s) (eval_cache s) q (free_policy_keys s)
     (init_mode s) (queued_for_eval s) (signals s) (log s) (gen s).

Definition set_free_policy_keys (f : gset nat) (s : VariationOperator) :=
  VO (cfg s) (all_actors s) (elites_map s) (object_id s) (crossover_op s)
     (mutation_op s) (hyper s) (eval_cache s) (eval_in_queue s) f
     (init_mode s) (queued_for_eval s) (signals s) (log s) (gen s).

Definition set_queued_for_eval (n : Z) (s : VariationOperator) :=
  VO (cfg s) (all_actors s) (elites_map s) (object_id s) (crossover_op s)
     (mutation_op s) (hyper s) (eval_cache s) (eval_in_queue s)
     (free_policy_keys s) (init_mode s) n (signals s) (log s) (gen s).

Definition set_signals (l : list signal) (s : VariationOperator) :=
  VO (cfg s) (all_actors s) (elites_map s) (object_id s) (crossover_op s)
     (mutation_op s) (hyper s) (eval_cache s) (eval_in_queue s)
     (free_policy_keys s) (init_mode s) (queued_for_eval s) l (log s) (gen s).

Definition set_log (l : list (level * message)) (s : VariationOperator) :=
  VO (cfg s) (all_actors s) (elites_map s) (object_id s) (crossover_op s)
     (mutation_op s) (hyper s) (eval_cache s) (eval_in_queue s)
     (free_policy_keys s) (init_mode s) (queued_for_eval s) (signals s) l
     (gen s).

Definition set_gen (g : rng) (s : VariationOperator) :=
  VO (cfg s) (all_actors s) (elites_map s) (object_id s) (crossover_op s)
     (mutation_op s) (hyper s) (eval_cache s) (eval_in_queue s)
     (free_policy_keys s) (init_mode s) (queued_for_eval s) (signals s)
     (log s) g.

(** ** The monad of methods: state of the object, or an exception *)

Definition M (A : Type) : Type := VariationOperator -> result (A * VariationOperator).

Definition ret {A} (a : A) : M A := fun s => Ok (a, s).

Definition bind {A B} (m : M A) (k : A -> M B) : M B :=
  fun s => match m s with
           | Ok (a, s') => k a s'
           | Raise e => Raise e
           end.

Definition raise {A} (e : exception) : M A := fun _ => Raise e.

Definition get : M VariationOperator := fun s => Ok (s, s).

Definition modify (f : VariationOperator -> VariationOperator) : M unit :=
  fun s => Ok (tt, f s).

Notation "'do' x <- m ; k" := (bind m (fun x => k))
  (at level 10, x name, m at level 100, k at level 200).
Notation "m ;; k" := (bind m (fun _ => k))
  (at level 100, k at level 200, right associativity).

Definition log_debug (m : message) : M unit :=
  modify (fun s => set_log (log s ++ [(Debug, m)]) s).

Definition log_warn (m : message) : M unit :=
  modify (fun s => set_log (log s ++ [(Warn, m)]) s).

Definition emit (sg : signal) : M unit :=
  modify (fun s => set_signals (signals s ++ [sg]) s).

(** *** Sampling primitives

    The standard deviations are taken non-negative, as both libraries
    require of their callers. *)

(** [torch.zeros(n).normal_(mean=0, std)]: [n] fresh samples, scaled. *)
Definition normal_ (n : nat) (std : Q) : M (list Q) :=
  fun s =>
    let '(xs, st) := draw n (torch_normal (gen s)) in
    Ok (map (Qmult std) xs,
        set_gen (Rng st (torch_uniform (gen s)) (numpy_normal (gen s))
                     (numpy_choice (gen s)) (set_order (gen s))) s).

(** [torch.rand_like(y)]: one uniform sample per element. *)
Definition rand_like (y : tensor) : M tensor :=
  fun s =>
    let '(xs, st) := draw (length (data y)) (torch_uniform (gen s)) in
    Ok (Tensor (shape y) xs,
        set_gen (Rng (torch_normal (gen s)) st (numpy_normal (gen s))
                     (numpy_choice (gen s)) (set_order (gen s))) s).

(** [np.random.normal(0, scale)]: one scalar. *)
Definition np_random_normal (scale : Q) : M Q :=
  fun s =>
    let '(xs, st) := draw 1 (numpy_normal (gen s)) in
    Ok ((scale * hd 0 xs)%Q,
        set_gen (Rng (torch_normal (gen s)) (torch_uniform (gen s)) st
                     (numpy_choice (gen s)) (set_order (gen s))) s).

(** [list(X)] for a set [X]: one proposal of an order is consumed.
    Only the listing that is zipped with the children goes through it:
    the order of a pool handed to [np.random.choice] is absorbed by the
    integers that drive the draw. *)
Definition list_of_set (X : gset nat) : M (list nat) :=
  fun s =>
    let '(fs, st) := draw 1 (set_order (gen s)) in
    Ok (arrange (hd (fun l => l) fs) X,
        set_gen (Rng (torch_normal (gen s)) (torch_uniform (gen s))
                     (numpy_normal (gen s)) (numpy_choice (gen s)) st) s).

(** ** Genetic operators *)

(** Elementwise [x.clone() + a + b * (y - x)]. *)
Fixpoint iso_line (b : Q) (x a y : list Q) : list Q :=
  match x, a, y with
  | xi :: x', ai :: a', yi :: y' =>
      ((xi + ai) + b * (yi - xi))%Q :: iso_line b x' a' y'
  | _, _, _ => []
  end.

(** [if not self.max and not self.min]: no clamping. *)
Definition unclamped (h : hyperparams) : bool :=
  negb (truthy (self_max h)) && negb (truthy (self_min h)).

Definition clamp_or_return (h : hyperparams) (z : tensor) : tensor :=
  if unclamped h then z
  else torch_clamp z (as_number (self_min h)) (as_number (self_max h)).

(** [iso_dd(self, x, y)].  Operands of different shapes (broadcasting)
    are outside the model. *)
Definition iso_dd (x y : tensor) : M tensor :=
  do self <- get;
  do a <- normal_ (length (data x)) (iso_sigma (hyper self));
  do b <- np_random_normal (line_sigma (hyper self));
  if bool_decide (shape x = shape y) then
    ret (clamp_or_return (hyper self)
           (Tensor (shape x) (iso_line b (data x) a (data y))))
  else raise OutsideModel.

Definition Qltb (a b : Q) : bool := negb (Qle_bool b a).

(** Positions (row-major) of the elements of [m] below [rate]. *)
Definition mask_positions (m : list Q) (rate : Q) : list nat :=
  List.filter (fun k => Qltb (nth k m 0%Q) rate) (seq 0 (length m)).

(** [torch.where(m < rate)], transposed: one multi-index per selected
    element, in row-major order. *)
Definition torch_where_lt (m : tensor) (rate : Q) : list (list nat) :=
  map (unravel (shape m)) (mask_positions (data m) rate).

(** [y[i0, ..] = v]: the values are stored at the addressed elements in
    order. *)
Definition index_put (y : list Q) (offs : list nat) (vals : list Q) : list Q :=
  fold_left (fun acc ov => <[fst ov := snd ov]> acc) (zip offs vals) y.

(** [y[i0, ..] += delta] with index arrays: gather, add, store. *)
Definition index_add (y : tensor) (idx : list (list nat)) (delta : list Q)
  : M tensor :=
  let offs := map (ravel (shape y)) idx in
  if forallb (fun o => o <? length (data y)) offs then
    let gathered := map (fun o => nth o (data y) 0%Q) offs in
    ret (Tensor (shape y)
           (index_put (data y) offs (zip_with Qplus gathered delta)))
  else raise IndexError.

(** [gaussian_mutation(self, x)].  On a rank-0 tensor the indexing asks
    for an index array that [torch.where] did not return; ranks above 3
    reach the last branch with too few index arrays and are outside the
    model. *)
Definition gaussian_mutation (x : tensor) : M tensor :=
  do self <- get;
  let y := x in
  do m <- rand_like y;
  let index := torch_where_lt m (mutation_rate (hyper self)) in
  match length (shape y) with
  | 0 => raise IndexError
  | _ =>
    do delta <- normal_ (length index) (sigma (hyper self));
    do y <- match length (shape y) with
            | 1 => index_add y (map (take 1) index) delta
            | 2 => index_add y (map (take 2) index) delta
            | 3 => index_add y (map (take 3) index) delta
            | _ => raise OutsideModel
            end;
    ret (clamp_or_return (hyper self) y)
  end.

(** A bound method is modelled by its name; calling it dispatches to
    the methods this class defines.  A method inherited from the event
    loop base class is outside the model. *)
Definition call_crossover (op : string) (x y : tensor) : M tensor :=
  if String.eqb op "iso_dd" then iso_dd x y else raise OutsideModel.

Definition call_mutation (op : string) (x : tensor) : M tensor :=
  if String.eqb op "gaussian_mutation" then gaussian_mutation x
  else raise OutsideModel.

(** ** State dicts *)

Fixpoint sd_get (name : string) (sd : state_dict) : option tensor :=
  match sd with
  | [] => None
  | (n, t) :: sd' => if String.eqb n name then Some t else sd_get name sd'
  end.

Fixpoint sd_set (name : string) (v : tensor) (sd : state_dict) : state_dict :=
  match sd with
  | [] => [(name, v)]
  | (n, t) :: sd' =>
      if String.eqb n name then (n, v) :: sd' else (n, t) :: sd_set name v sd'
  end.

(** The test guarding both loops, ['weight' or 'bias' in tensor]:
    [in] binds tighter than [or], and [or] yields its first operand
    when that is truthy. *)
Definition tensor_selected (tensor : string) : bool :=
  str_truthy "weight" || str_in "bias" tensor.

(** The loop of [batch_crossover] over the names of [batch_x_state_dict]. *)
Fixpoint batch_crossover_loop (names : list string)
    (batch_x_state_dict batch_y_state_dict batch_z_state_dict : state_dict)
    (crossover_op : string) : M state_dict :=
  match names with
  | [] => ret batch_z_state_dict
  | tensor :: names' =>
      if tensor_selected tensor then
        match sd_get tensor batch_x_state_dict,
              sd_get tensor batch_y_state_dict with
        | Some tx, Some ty =>
            do tz <- call_crossover crossover_op tx ty;
            batch_crossover_loop names' batch_x_state_dict batch_y_state_dict
              (sd_set tensor tz batch_z_state_dict) crossover_op
        | _, _ => raise KeyError
        end
      else
        batch_crossover_loop names' batch_x_state_dict batch_y_state_dict
          batch_z_state_dict crossover_op
  end.

Definition batch_crossover (batch_x_state_dict batch_y_state_dict : state_dict)
    (crossover_op : string) : M state_dict :=
  batch_crossover_loop (map fst batch_x_state_dict) batch_x_state_dict
    batch_y_state_dict batch_x_state_dict crossover_op.

Fixpoint batch_mutation_loop (names : list string)
    (batch_x_state_dict y : state_dict) (mutation_op : string) : M state_dict :=
  match names with
  | [] => ret y
  | tensor :: names' =>
      if tensor_selected tensor then
        match sd_get tensor batch_x_state_dict with
        | Some tx =>
            do ty <- call_mutation mutation_op tx;
            batch_mutation_loop names' batch_x_state_dict (sd_set tensor ty y)
              mutation_op
        | None => raise KeyError
        end
      else batch_mutation_loop names' batch_x_state_dict y mutation_op
  end.

Definition batch_mutation (batch_x_state_dict : state_dict)
    (mutation_op : string) : M state_dict :=
  batch_mutation_loop (map fst batch_x_state_dict) batch_x_state_dict
    batch_x_state_dict mutation_op.

(** ** The batched parameter view *)

Definition lift {A} (r : result A) : M A :=
  fun s => match r with
           | Ok a => Ok (a, s)
           | Raise e => Raise e
           end.

Fixpoint mapR {A B} (f : A -> result B) (l : list A) : result (list B) :=
  match l with
  | [] => Ok []
  | a :: l' =>
      match f a with
      | Ok b => match mapR f l' with
                | Ok bs => Ok (b :: bs)
                | Raise e => Raise e
                end
      | Raise e => Raise e
      end
  end.

(** [load_state_dict] of torch modules, strict: the names offered must be
    the names owned, tensor by tensor of the same shape; the values
    offered replace the values owned. *)
Definition load_state_dict (own offered : state_dict) : result state_dict :=
  if forallb (fun nt => bool_decide (fst nt ∈ map fst own)) offered then
    mapR (fun nt => match sd_get (fst nt) offered with
                    | Some t' => if bool_decide (shape t' = shape (snd nt))
                                 then Ok (fst nt, t')
                                 else Raise RuntimeError
                    | None => Raise RuntimeError
                    end) own
  else Raise RuntimeError.

(** Modelled from the spec: [BatchMLP] of [utils.vectorized] is not part
    of the sources at hand.  The spec describes it as a load/store view
    that gathers the parameter tensors of a list of policies into one
    batched structure, whose leading dimension indexes the individuals,
    and scatters results back.  The view of an empty list is empty: a
    mutation-only round builds the view of its Y parents from the empty
    list ([actor_y_ids] is then [[]], not [None]: variation.py, lines
    119 and 135 to 139), and the spec requires mutation-only pipelines
    to run. *)
Record BatchMLP := Batch { num_mlps : nat; params : state_dict }.

Definition stack (ts : list tensor) : result tensor :=
  match ts with
  | [] => Raise RuntimeError
  | t0 :: _ =>
      if forallb (fun t => bool_decide (shape t = shape t0)) ts
      then Ok (Tensor (length ts :: shape t0) (concat (map data ts)))
      else Raise RuntimeError
  end.

Definition BatchMLP_init (mlps : list policy) : result BatchMLP :=
  match mlps with
  | [] => Ok (Batch 0 [])
  | p0 :: _ =>
      match mapR (fun nt =>
                    match mapR (fun p => match sd_get (fst nt) p with
                                         | Some t => Ok t
                                         | None => Raise KeyError
                                         end) mlps with
                    | Ok ts => match stack ts with
                               | Ok t => Ok (fst nt, t)
                               | Raise e => Raise e
                               end
                    | Raise e => Raise e
                    end) p0 with
      | Ok sd => Ok (Batch (length mlps) sd)
      | Raise e => Raise e
      end
  end.

(** Row [i] of a batched tensor. *)
Definition unstack_row (i : nat) (t : tensor) : tensor :=
  let n := numel (tail (shape t)) in
  Tensor (tail (shape t)) (take n (drop (i * n) (data t))).

(** Modelled from the spec: [update_mlps] scatters row [i] of every
    batched tensor into the [i]-th policy handed in, and returns them. *)
Definition update_mlps (b : BatchMLP) (mlps : list policy) : list policy :=
  imap (fun i p =>
          fold_left (fun acc nt => sd_set (fst nt) (unstack_row i (snd nt)) acc)
                    (params b) p) mlps.

(** ** [evo] *)

Definition evo (actor_x actor_y : BatchMLP)
    (crossover_op mutation_op : option string) : M BatchMLP :=
  let actor_z := actor_x in
  let actor_z_state_dict := params actor_z in
  do actor_z_state_dict <-
    match crossover_op with
    | Some cop =>
        do z <- batch_crossover (params actor_x) (params actor_y) cop;
        match mutation_op with
        | Some mop => batch_mutation z mop
        | None => ret z
        end
    | None =>
        match mutation_op with
        | Some mop => batch_mutation actor_z_state_dict mop
        | None => ret actor_z_state_dict
        end
    end;
  do loaded <- lift (load_state_dict (params actor_z) actor_z_state_dict);
  log_debug (Mutated_actors (num_mlps actor_x));;
  ret (Batch (num_mlps actor_z) loaded).

(** ** numpy helpers *)

(** Sampling without replacement: every draw takes one element out of
    what is left of the pool. *)
Fixpoint choice_without_replacement (pool : list nat) (rs : list nat) : list nat :=
  match rs with
  | [] => []
  | r :: rs' =>
      match pool !! (r mod length pool) with
      | Some a => a :: choice_without_replacement (delete (r mod length pool) pool) rs'
      | None => []
      end
  end.

(** [np.random.choice(a, size=size, replace=False)]. *)
Definition np_random_choice (a : list nat) (size : Z) : M (list nat) :=
  fun s =>
    if (size <? 0)%Z then Raise ValueError
    else if length a <? Z.to_nat size then Raise ValueError
    else
      let '(rs, st) := draw (Z.to_nat size) (numpy_choice (gen s)) in
      Ok (choice_without_replacement a rs,
          set_gen (Rng (torch_normal (gen s)) (torch_uniform (gen s))
                       (numpy_normal (gen s)) st (set_order (gen s))) s).

(** [np.repeat(ids, repeats)]: each element [repeats] times in a row. *)
Definition np_repeat (ids : list nat) (repeats : Z) : result (list nat) :=
  if (repeats <? 0)%Z then Raise ValueError
  else Ok (ids ≫= replicate (Z.to_nat repeats)).

(** [array[ids]] with an array of integers. *)
Definition np_index {A} (array : list A) (ids : list nat) : result (list A) :=
  mapR (fun i => match array !! i with
                 | Some a => Ok a
                 | None => Raise IndexError
                 end) ids.

Fixpoint chunks {A} (n rows : nat) (l : list A) : list (list A) :=
  match rows with
  | 0 => []
  | S rows' => take n l :: chunks n rows' (drop n l)
  end.

(** [array.reshape(-1, m)]. *)
Definition np_reshape {A} (l : list A) (m : Z) : result (list (list A)) :=
  if (m <=? 0)%Z then Raise ValueError
  else if length l mod Z.to_nat m =? 0
       then Ok (chunks (Z.to_nat m) (length l / Z.to_nat m) l)
       else Raise ValueError.

(** [int(x)] on a rational: truncation towards zero. *)
Definition int_of_Q (q : Q) : Z := Z.quot (Qnum q) (Zpos (Qden q)).

(** ** The orchestrator *)

(** What a call of [evolve_batch] did.  The Python method returns [None]
    on both paths; the model hands back its local variables, so that
    statements can speak about the keys that were drawn. *)
Record round := Round {
  drawn_x : list nat;               (* [actor_x_ids] before [np.repeat] *)
  drawn_y : list nat;
  actor_x_ids : list nat;
  actor_y_ids : list nat;
  unique_actor_x_ids : list nat;
  actors_z : list (list policy)     (* after the reshape *)
}.

Inductive outcome :=
| Skipped
| Submitted (r : round).

(** The inner loop: [zip(p_cache, pz)] stops at the shorter list. *)
Fixpoint load_row (p_cache pz : list policy) : result (list policy) :=
  match p_cache, pz with
  | cached_policy :: p_cache', mutated_policy :: pz' =>
      match load_state_dict cached_policy mutated_policy with
      | Ok loaded =>
          match load_row p_cache' pz' with
          | Ok rest => Ok (loaded :: rest)
          | Raise e => Raise e
          end
      | Raise e => Raise e
      end
  | _, _ => Ok p_cache
  end.

(** The outer loop: the policies of [cached_actors] are the objects held
    by [eval_cache] at the keys they were read from. *)
Fixpoint write_cache (cache : list (list policy)) (keys : list nat)
    (cached_actors rows : list (list policy)) : result (list (list policy)) :=
  match keys, cached_actors, rows with
  | k :: keys', p_cache :: cached', pz :: rows' =>
      match load_row p_cache pz with
      | Ok row => write_cache (<[k := row]> cache) keys' cached' rows'
      | Raise e => Raise e
      end
  | _, _, _ => Ok cache
  end.

(** The parent selection of [evolve_batch]: the [if]/[elif] on the two
    configured operators.  [actor_x_ids] and [actor_y_ids] start as
    empty lists and stay so when neither branch is taken.  The result is
    the keys drawn and their replication. *)
Definition draw_parents (free_keys : list nat) (batch_size : Z)
  : M (list nat * list nat * list nat * list nat) :=
  do self <- get;
  match mutation_op self, crossover_op self with
  | Some _, None =>
      do x <- np_random_choice free_keys batch_size;
      do xr <- lift (np_repeat x (Cfg.mutations_per_policy (cfg self)));
      ret (x, [], xr, [])
  | _, Some _ =>
      do x <- np_random_choice free_keys batch_size;
      do y <- np_random_choice free_keys batch_size;
      do xr <- lift (np_repeat x (Cfg.mutations_per_policy (cfg self)));
      do yr <- lift (np_repeat y (Cfg.mutations_per_policy (cfg self)));
      ret (x, y, xr, yr)
  | None, None => ret ([], [], [], [])
  end.

Definition evolve_batch (init : bool) : M outcome :=
  do self <- get;
  do sel <-
    (if init then
       log_debug Initializing_with_random_policies;;
       ret (Cfg.random_init_batch (cfg self), elements (free_policy_keys self))
     else
       log_debug Mutating_from_elites;;
       ret (int_of_Q (inject_Z (Cfg.eval_batch_size (cfg self))
                      * Cfg.proportion_evo (cfg self)),
            map (fun x => fst (snd x)) (map_to_list (elites_map self))));
  let batch_size := fst sel in
  let keys := snd sel in
  let free_keys := elements (free_policy_keys self ∩ list_to_set keys) in
  if (Z.of_nat (length free_keys) <? batch_size)%Z then
    log_warn (Not_enough_free_policies (length free_keys) batch_size);;
    ret Skipped
  else
    do ids <- draw_parents free_keys batch_size;
    let '(x, y, actor_x_ids, actor_y_ids) := ids in
    modify (fun s => set_free_policy_keys
                       (free_policy_keys s ∖ list_to_set actor_x_ids) s);;
    do actors_x_evo <- lift (np_index (all_actors self) actor_x_ids);
    do actors_y_evo <- lift (np_index (all_actors self) actor_y_ids);
    do batch_actors_x <- lift (BatchMLP_init actors_x_evo);
    do batch_actors_y <- lift (BatchMLP_init actors_y_evo);
    do actor_z <- evo batch_actors_x batch_actors_y
                      (crossover_op self) (mutation_op self);
    let actors_z := update_mlps actor_z actors_x_evo in
    do unique_actor_x_ids <- list_of_set (list_to_set actor_x_ids);
    do cached_actors <- lift (np_index (eval_cache self) unique_actor_x_ids);
    do actors_z <- lift (np_reshape actors_z
                           (Cfg.mutations_per_policy (cfg self)));
    do cache <- lift (write_cache (eval_cache self) unique_actor_x_ids
                        cached_actors actors_z);
    modify (set_eval_cache cache);;
    modify (fun s => set_queued_for_eval
                       (queued_for_eval s + Z.of_nat (length actor_x_ids)) s);;
    modify (fun s => set_eval_in_queue
                       (eval_in_queue s ++ [unique_actor_x_ids]) s);;
    do s <- get;
    emit (to_evaluate (object_id s) (init_mode s));;
    ret (Submitted (Round x y actor_x_ids actor_y_ids unique_actor_x_ids
                          actors_z)).

Definition maybe_mutate_new_batch : M unit :=
  do self <- get;
  if (queued_for_eval self <? 2 * Cfg.num_agents (cfg self))%Z then
    let init_mode :=
      if (Z.of_nat (size (elites_map self)) <=? Cfg.random_init (cfg self))%Z
      then true else false in
    evolve_batch init_mode;;
    ret tt
  else ret tt.

(** [on_eval_results]: only [oid] and [agents] are used. *)
Definition on_eval_results (oid : nat) (agents : list policy) : M unit :=
  let num_eval := length agents in
  modify (fun s => set_queued_for_eval
                     (queued_for_eval s - Z.of_nat num_eval) s);;
  do s <- get;
  log_debug (Received_processed_agents (length agents) oid (queued_for_eval s)).

Definition on_release (mapped_actors_keys : list nat) : M unit :=
  modify (fun s => set_free_policy_keys
                     (free_policy_keys s ∪ list_to_set mapped_actors_keys) s).

(** ** Construction *)

(** The methods and signals the class body defines. *)
Definition class_attributes : list string :=
  [ "__init__"; "to_evaluate"; "stop"; "on_stop"; "on_eval_results";
    "on_release"; "maybe_mutate_new_batch"; "evolve_batch"; "flush"; "evo";
    "batch_crossover"; "batch_mutation"; "iso_dd"; "gaussian_mutation" ]%string.

Section Construction.

(** The attributes the base class [EventLoopObject] of the signal-slot
    runtime provides; the runtime is not part of the sources at hand. *)
Variable inherited : list string.

(** [getattr(self, name)] for a name that is not an instance attribute:
    the bound method of that name, or [AttributeError]. *)
Definition getattr (name : string) : result string :=
  if bool_decide (name ∈ class_attributes ++ inherited) then Ok name
  else Raise AttributeError.

Definition __init__ (cfg : Cfg.t) (all_actors : list policy)
    (elites_map : gmap nat (nat * Q)) (eval_cache : list (list policy))
    (eval_in_queue : list (list nat)) (free_policy_keys : gset nat)
    (object_id : nat) (kwargs : hyperparams) (g : rng)
    (logged : list (level * message)) : result VariationOperator :=
  let init_mode := true in
  let queued_for_eval := 0%Z in
  match (if bool_decide (Cfg.crossover_op cfg ∈ ["sbx"; "iso_dd"]%string)
         then match getattr (Cfg.crossover_op cfg) with
              | Ok m => Ok (Some m, logged)
              | Raise e => Raise e
              end
         else Ok (None, logged ++ [(Warn, Not_using_crossover)])) with
  | Raise e => Raise e
  | Ok (crossover_op, logged) =>
      match (if bool_decide (Cfg.mutation_op cfg ∈
                   ["polynomial_mutation"; "gaussian_mutation";
                    "uniform_mutation"]%string)
             then match getattr (Cfg.mutation_op cfg) with
                  | Ok m => Ok (Some m, logged)
                  | Raise e => Raise e
                  end
             else Ok (None, logged ++ [(Warn, Not_using_mutation)])) with
      | Raise e => Raise e
      | Ok (mutation_op, logged) =>
          Ok (VO cfg all_actors elites_map object_id crossover_op
                 mutation_op kwargs eval_cache eval_in_queue
                 free_policy_keys init_mode queued_for_eval [] logged g)
      end
  end.

End Construction.

(** ** Vocabulary of the statements *)

(** *** Operators *)

(** The number of selected positions before [k]: the rank of [k] among
    the selected positions. *)
Definition selected_before (m : list Q) (rate : Q) (k : nat) : nat :=
  length (List.filter (fun i => Qltb (nth i m 0%Q) rate) (seq 0 k)).

(** The uniform samples [gaussian_mutation] reads for a tensor of [n]
    elements. *)
Definition mask_samples (s : VariationOperator) (n : nat) : list Q :=
  map (sample (torch_uniform (gen s))) (seq (cursor (torch_uniform (gen s))) n).

(** The generator after [u] uniform and [n] normal torch samples. *)
Definition torch_advanced (u n : nat) (s : VariationOperator) : VariationOperator :=
  set_gen (Rng (Stream (sample (torch_normal (gen s)))
                       (cursor (torch_normal (gen s)) + n))
               (Stream (sample (torch_uniform (gen s)))
                       (cursor (torch_uniform (gen s)) + u))
               (numpy_normal (gen s)) (numpy_choice (gen s))
               (set_order (gen s))) s.

(** What the operators do to the clamp: the identity when both bounds
    are falsy, [torch.clamp] otherwise. *)
Definition clamp_or_keep (h : hyperparams) (v : Q) : Q :=
  if unclamped h then v
  else clamp_elt (as_number (self_min h)) (as_number (self_max h)) v.

Definition bound_configured (b : gene_bound) : Prop :=
  match b with
  | PyNum _ => True
  | PyFalse => False
  end.

(** *** Rounds of [evolve_batch] *)

(** A computation that touches nothing but the generators and the log. *)
Definition keeps_object {A} (m : M A) : Prop :=
  forall s a s1, m s = Ok (a, s1) -> s1 = set_log (log s1) (set_gen (gen s1) s).

(** The batch size and the candidate keys of a round. *)
Definition batch_size_of (init : bool) (self : VariationOperator) : Z :=
  if init then Cfg.random_init_batch (cfg self)
  else int_of_Q (inject_Z (Cfg.eval_batch_size (cfg self))
                 * Cfg.proportion_evo (cfg self)).

Definition candidate_keys (init : bool) (self : VariationOperator) : list nat :=
  if init then elements (free_policy_keys self)
  else map (fun x => fst (snd x)) (map_to_list (elites_map self)).

(** [free_keys]: the candidates that are free. *)
Definition free_keys_of (init : bool) (self : VariationOperator) : list nat :=
  elements (free_policy_keys self ∩ list_to_set (candidate_keys init self)).

Definition mode_message (init : bool) : message :=
  if init then Initializing_with_random_policies else Mutating_from_elites.

(** One [np.random.choice] of the round. *)
Definition drawn_from (pool : list nat) (B : Z) (x : list nat) : Prop :=
  (0 <= B)%Z /\ length x = Z.to_nat B /\ NoDup x /\ forall k, k ∈ x -> k ∈ pool.

(** The parents of a round, by configuration. *)
Definition parents_of (self : VariationOperator) (pool : list nat) (B : Z)
    (r : round) : Prop :=
  let mpp := Cfg.mutations_per_policy (cfg self) in
  match mutation_op self, crossover_op self with
  | Some _, None =>
      drawn_from pool B (drawn_x r) /\ drawn_y r = [] /\ (0 <= mpp)%Z /\
      actor_x_ids r = drawn_x r ≫= replicate (Z.to_nat mpp) /\
      actor_y_ids r = []
  | _, Some _ =>
      drawn_from pool B (drawn_x r) /\ drawn_from pool B (drawn_y r) /\
      (0 <= mpp)%Z /\
      actor_x_ids r = drawn_x r ≫= replicate (Z.to_nat mpp) /\
      actor_y_ids r = drawn_y r ≫= replicate (Z.to_nat mpp)
  | None, None =>
      drawn_x r = [] /\ drawn_y r = [] /\ actor_x_ids r = [] /\
      actor_y_ids r = []
  end.


(** What a submitting round leaves behind. *)
Record submitted (init : bool) (s : VariationOperator) (r : round)
    (s' : VariationOperator) : Prop := {
  sub_enough :
    (batch_size_of init s <= Z.of_nat (length (free_keys_of init s)))%Z;
  sub_parents : parents_of s (free_keys_of init s) (batch_size_of init s) r;
  sub_free :
    free_policy_keys s' = free_policy_keys s ∖ list_to_set (actor_x_ids r);
  sub_unique :
    NoDup (unique_actor_x_ids r) /\
    (list_to_set (unique_actor_x_ids r) : gset nat)
      = list_to_set (actor_x_ids r);
  sub_cache :
    exists cached flat,
      np_index (eval_cache s) (unique_actor_x_ids r) = Ok cached /\
      length flat = length (actor_x_ids r) /\
      np_reshape flat (Cfg.mutations_per_policy (cfg s)) = Ok (actors_z r) /\
      write_cache (eval_cache s) (unique_actor_x_ids r) cached (actors_z r)
        = Ok (eval_cache s');
  sub_queued :
    queued_for_eval s' =
      (queued_for_eval s + Z.of_nat (length (actor_x_ids r)))%Z;
  sub_queue : eval_in_queue s' = eval_in_queue s ++ [unique_actor_x_ids r];
  sub_signals :
    signals s' = signals s ++ [to_evaluate (object_id s) (init_mode s)];
  sub_init_mode : init_mode s' = init_mode s;
  sub_cfg : cfg s' = cfg s;
  sub_ops : crossover_op s' = crossover_op s /\ mutation_op s' = mutation_op s;
  sub_elites : elites_map s' = elites_map s
}.

(** What a skipped round leaves behind: two log lines, nothing else. *)
Definition skipped (init : bool) (s s' : VariationOperator) : Prop :=
  (Z.of_nat (length (free_keys_of init s)) < batch_size_of init s)%Z /\
  s' = set_log (log s ++ [(Debug, mode_message init);
                          (Warn, Not_enough_free_policies
                                   (length (free_keys_of init s))
                                   (batch_size_of init s))]) s.

(** Two policies with the same parameter values. *)
Definition same_params (p q : policy) : Prop :=
  forall name, sd_get name p = sd_get name q.

(** *** Sequences of calls *)

Inductive call :=
| Evolve (init : bool)
| EvalResults (oid : nat) (agents : list policy)
| Release (mapped_actors_keys : list nat).

(** The calls are run in order, as the event loop dispatches handlers
    one after the other; the outcomes of the rounds are collected. *)
Fixpoint run (cs : list call) : M (list outcome) :=
  match cs with
  | [] => ret []
  | Evolve init :: cs' =>
      do o <- evolve_batch init;
      do os <- run cs';
      ret (o :: os)
  | EvalResults oid agents :: cs' => on_eval_results oid agents;; run cs'
  | Release keys :: cs' => on_release keys;; run cs'
  end.

(** Replicated keys submitted by one round, and by all of them. *)
Definition submitted_keys (o : outcome) : Z :=
  match o with
  | Skipped => 0
  | Submitted r => Z.of_nat (length (actor_x_ids r))
  end.

Definition total_submitted (os : list outcome) : Z :=
  foldr (fun o acc => (submitted_keys o + acc)%Z) 0%Z os.

(** Agents reported back by all [on_eval_results] calls. *)
Definition total_reported (cs : list call) : Z :=
  foldr (fun c acc => match c with
                      | EvalResults _ agents => (Z.of_nat (length agents) + acc)%Z
                      | _ => acc
                      end) 0%Z cs.

(** ** Concrete objects, for running the model *)

Definition constant_gen (normal uniform : Q) : rng :=
  Rng (Stream (fun _ => normal) 0) (Stream (fun _ => uniform) 0)
      (Stream (fun _ => normal) 0) (Stream (fun i => 7 * i + 3) 0)
      (Stream (fun _ l => l) 0).

Definition small_cfg (crossover mutation : string) : Cfg.t :=
  Cfg.Make crossover mutation 4 10 8 16 (1 # 2) 2.

Definition clamped_hyperparams (lo hi : gene_bound) (rate : Q) : hyperparams :=
  Hyper hi lo rate (75 # 100) 5 10 1 (1 # 10) 1 1.

(** An operator object with no policies, for running single operators. *)
Definition bare_operator (h : hyperparams) (g : rng) : VariationOperator :=
  VO (small_cfg "iso_dd" "gaussian_mutation") [] ∅ 1 (Some "iso_dd"%string)
     (Some "gaussian_mutation"%string) h [] [] ∅ true 0 [] [] g.

(** The bootstrap scenario of the spec: 100 policies and as many cache
    entries of depth 2, batches of 8, a bootstrap threshold of 10. *)
Definition demo_policy (i : nat) : policy :=
  [ ("layers.0.weight"%string, Tensor [1; 2] [inject_Z (Z.of_nat i); 1%Q]);
    ("layers.0.bias"%string, Tensor [1] [0%Q]) ].

Definition scenario (cop mop : option string) (free : list nat)
    (elites : gmap nat (nat * Q)) : VariationOperator :=
  VO (small_cfg "iso_dd" "none") (map demo_policy (seq 0 100)) elites 1
     cop mop default_hyperparams
     (replicate 100 (replicate 2 (demo_policy 0))) []
     (list_to_set free) true 0 [] []
     (constant_gen 1 (1 # 4)).

Definition bootstrap : VariationOperator :=
  scenario (Some "iso_dd"%string) None (seq 0 100) ∅.


(** A seeded archive: three elites backed by the keys 0, 1 and 2, past
    a [random_init] threshold of 2; steady-state batches of 2. *)
Definition seeded_cfg : Cfg.t := Cfg.Make "iso_dd" "none" 4 2 8 4 (1 # 2) 2.

Definition seeded_elites : gmap nat (nat * Q) :=
  <[0 := (0, 1%Q)]> (<[1 := (1, 2%Q)]> (<[2 := (2, 3%Q)]> ∅)).

Definition seeded : result VariationOperator :=
  __init__ [] seeded_cfg (map demo_policy (seq 0 10)) seeded_elites
    (replicate 10 (replicate 2 (demo_policy 0))) [] (list_to_set (seq 0 10)) 1
    default_hyperparams (constant_gen 1 (1 # 4)) [].

Definition seeded_operator : VariationOperator :=
  match seeded with
  | Ok s => s
  | Raise _ => bootstrap
  end.

Definition balanced_calls : list call :=
  [ Evolve true;
    EvalResults 7 (replicate 10 (demo_policy 0));
    Release [3; 4];
    Evolve true;
    EvalResults 7 (replicate 22 (demo_policy 0)) ].

(** The round and the state a run ended with. *)
Definition round_of (r : result (outcome * VariationOperator)) : round :=
  match r with
  | Ok (Submitted r, _) => r
  | _ => Round [] [] [] [] [] []
  end.

Definition state_of {A} (s : VariationOperator)
    (r : result (A * VariationOperator)) : VariationOperator :=
  match r with
  | Ok (_, s') => s'
  | Raise _ => s
  end.

(** ** Vocabulary of the further properties *)

(** The attributes no handler is meant to write: configuration, policy
    pool, archive, identity, operators, hyperparameters and
    [init_mode]. *)
Definition same_config (s s' : VariationOperator) : Prop :=
  cfg s' = cfg s /\ all_actors s' = all_actors s /\
  elites_map s' = elites_map s /\ object_id s' = object_id s /\
  crossover_op s' = crossover_op s /\ mutation_op s' = mutation_op s /\
  hyper s' = hyper s /\ init_mode s' = init_mode s.

Definition keeps_config {A} (m : M A) : Prop :=
  forall s a s', m s = Ok (a, s') -> same_config s s'.

(** The rounds that submitted, in order. *)
Definition rounds_of (os : list outcome) : list round :=
  os ≫= (fun o => match o with
                  | Submitted r => [r]
                  | Skipped => []
                  end).

(** The keys claimed by a list of outcomes, in order. *)
Definition claimed_by (os : list outcome) : list nat :=
  rounds_of os ≫= drawn_x.

Definition is_release (c : call) : bool :=
  match c with
  | Release _ => true
  | _ => false
  end.

(** The mode [maybe_mutate_new_batch] runs a round in. *)
Definition tick_mode (self : VariationOperator) : bool :=
  if (Z.of_nat (size (elites_map self)) <=? Cfg.random_init (cfg self))%Z
  then true else false.

(** A state dict as torch hands them out: no name twice. *)
Definition unique_names (sd : state_dict) : Prop := NoDup (map fst sd).

(** Two state dicts of one schema: the same names in the same order,
    tensor by tensor of the same shape. *)
Definition same_schema (a b : state_dict) : Prop :=
  Forall2 (fun x y => fst x = fst y /\ shape (snd x) = shape (snd y)) a b.

(** A shorter run of calls without a release. *)
Definition two_rounds : list call :=
  [ Evolve true; EvalResults 7 (replicate 10 (demo_policy 0)); Evolve true ].

(** What the event loop delivers to the object: a firing of the
    periodic timer, a report of evaluation results, a release of keys. *)
Inductive event :=
| Timer
| Results (oid : nat) (agents : list policy)
| Released (mapped_actors_keys : list nat).

(** The handlers are run one after the other, each to completion. *)
Fixpoint dispatch (es : list event) : M unit :=
  match es with
  | [] => ret tt
  | Timer :: es' => maybe_mutate_new_batch;; dispatch es'
  | Results oid agents :: es' => on_eval_results oid agents;; dispatch es'
  | Released keys :: es' => on_release keys;; dispatch es'
  end.

(** The most replicated keys one round can submit under a configuration. *)
Definition round_cap (s : VariationOperator) : Z :=
  (Z.max 0 (Z.max (batch_size_of true s) (batch_size_of false s))
   * Z.max 0 (Cfg.mutations_per_policy (cfg s)))%Z.

Definition busy_day : list event :=
  [ Timer; Timer; Results 7 (replicate 20 (demo_policy 0)); Timer;
    Released [3; 4]; Timer; Timer ].

(** A configuration whose batch size is negative. *)
Definition negative_batch : VariationOperator :=
  VO (Cfg.Make "iso_dd" "none" 4 10 (-1) 16 (1 # 2) 2)
     (map demo_policy (seq 0 100)) ∅ 1 (Some "iso_dd"%string) None
     default_hyperparams (replicate 100 (replicate 2 (demo_policy 0))) []
     (list_to_set (seq 0 100)) true 0 [] [] (constant_gen 1 (1 # 4)).

(** A batched view of two policies of the scenario. *)
Definition demo_batch : BatchMLP :=
  match BatchMLP_init [demo_policy 3; demo_policy 5] with
  | Ok b => b
  | Raise _ => Batch 0 []
  end.

(** The recognised operator names of [__init__]. *)
Definition recognised_crossover : list string := ["sbx"; "iso_dd"]%string.

Definition recognised_mutation : list string :=
  ["polynomial_mutation"; "gaussian_mutation"; "uniform_mutation"]%string.

(** The stage a configured name resolves to when construction succeeds. *)
Definition stage_of (recognised : list string) (name : string) : option string :=
  if bool_decide (name ∈ recognised) then Some name else None.

(** The warnings of construction, crossover stage first. *)
Definition stage_warnings (c : Cfg.t) : list (level * message) :=
  (if bool_decide (Cfg.crossover_op c ∈ recognised_crossover) then []
   else [(Warn, Not_using_crossover)]) ++
  (if bool_decide (Cfg.mutation_op c ∈ recognised_mutation) then []
   else [(Warn, Not_using_mutation)]).

(** * The behaviour-descriptor wrapper ([wrappers/BDWrapper.py])

    The wrapped environment is outside the sources: what one call of
    [env.step(action)] hands back, and the ground contact of the
    environment's legs after it, are inputs of the model.  The episode
    length only ever starts at 0 and grows by one, so it is a [nat]. *)

Module BDWrapper.

Record env_step := EnvStep {
  obs : list Q;
  rew : Q;
  done : bool;
  info : gmap string (list Q);
  legs : list bool                 (* [leg.ground_contact] of [env.legs] *)
}.

Record t := Make {
  ep_length : nat;
  behavior_dim : nat;
  leg1_idx : nat;
  leg2_idx : nat;
  behavior_desc : list Q;
  behavior_desc_acc : list Q
}.

(** [np.array([0.0 for _ in range(n)])]. *)
Definition zeros (n : nat) : list Q := replicate n 0%Q.

Definition __init__ (behavior_dim : nat) : t :=
  Make 0 behavior_dim 1 3 (zeros behavior_dim) (zeros behavior_dim).

(** [int(b)] of a Python [bool]. *)
Definition int_of_bool (b : bool) : Q := if b then 1%Q else 0%Q.

(** [acc += np.array([a, b])]: the in-place sum keeps the shape of
    [acc], so only an accumulator of two elements can take the two. *)
Definition iadd_pair (acc : list Q) (a b : Q) : result (list Q) :=
  match acc with
  | [x; y] => Ok [(x + a)%Q; (y + b)%Q]
  | _ => Raise ValueError
  end.

(** [step(self, action)], given what [env.step(action)] returned. *)
Definition step (self : t) (e : env_step)
  : result (t * (list Q * Q * bool * gmap string (list Q))) :=
  match legs e !! leg1_idx self, legs e !! leg2_idx self with
  | Some c1, Some c2 =>
      match iadd_pair (behavior_desc_acc self) (int_of_bool c1) (int_of_bool c2) with
      | Ok acc =>
          let ep_length := S (ep_length self) in
          if done e then
            let desc := map (fun a => (a / inject_Z (Z.of_nat ep_length))%Q) acc in
            Ok (Make ep_length (behavior_dim self) (leg1_idx self)
                     (leg2_idx self) desc acc,
                (obs e, rew e, done e, <["desc"%string := desc]> (info e)))
          else
            Ok (Make ep_length (behavior_dim self) (leg1_idx self)
                     (leg2_idx self) (behavior_desc self) acc,
                (obs e, rew e, done e, info e))
      | Raise ex => Raise ex
      end
  | _, _ => Raise IndexError
  end.

(** [reset(self)], given the observation [env.reset()] returned. *)
Definition reset (self : t) (obs0 : list Q) : t * list Q :=
  (Make 0 (behavior_dim self) (leg1_idx self) (leg2_idx self)
        (zeros (behavior_dim self)) (zeros (behavior_dim self)),
   obs0).

(** A run of steps; the outputs of the steps are collected. *)
Fixpoint steps (self : t) (es : list env_step)
  : result (t * list (list Q * Q * bool * gmap string (list Q))) :=
  match es with
  | [] => Ok (self, [])
  | e :: es' =>
      match step self e with
      | Ok (self', out) =>
          match steps self' es' with
          | Ok (self'', outs) => Ok (self'', out :: outs)
          | Raise ex => Raise ex
          end
      | Raise ex => Raise ex
      end
  end.

(** The number of steps of a run during which leg [i] touched the ground. *)
Definition contacts (i : nat) (es : list env_step) : nat :=
  length (List.filter (fun e => match legs e !! i with
                                | Some true => true
                                | _ => false
                                end) es).

(** Every step of the run has the two legs the wrapper reads. *)
Definition has_legs (self : t) (es : list env_step) : Prop :=
  Forall (fun e => is_Some (legs e !! leg1_idx self) /\
                   is_Some (legs e !! leg2_idx self)) es.

(** A walker step: four legs, the lower two at positions 1 and 3. *)
Definition walker_step (l1 l2 fin : bool) : env_step :=
  EnvStep [] 0 fin ∅ [false; l1; false; l2].

End BDWrapper.

(** * Properties *)

(** ** Tensors and index arithmetic *)

Lemma numel_cons d sh : numel (d :: sh) = d * numel sh.
Proof. reflexivity. Qed.

Lemma unravel_length sh k : length (unravel sh k) = length sh.
Proof.
  revert k; induction sh as [|d sh IH]; intros k; simpl; [done|].
  by rewrite IH.
Qed.

(** Addressing an element by the multi-index of its position gives the
    position back. *)
Lemma ravel_unravel sh k : k < numel sh -> ravel sh (unravel sh k) = k.
Proof.
  revert k; induction sh as [|d sh IH]; intros k Hk.
  - simpl in *. lia.
  - rewrite numel_cons in Hk. simpl.
    assert (Hn : numel sh <> 0) by (intros E; rewrite E in Hk; lia).
    rewrite IH by (apply Nat.mod_upper_bound; exact Hn).
    pose proof (Nat.div_mod k (numel sh) Hn). lia.
Qed.

Lemma lookup_map {A B} (f : A -> B) (l : list A) i :
  map f l !! i = f <$> (l !! i).
Proof. apply (list_lookup_fmap f l i). Qed.

(** ** Storing through index arrays *)

Lemma index_put_length y offs vals :
  length (index_put y offs vals) = length y.
Proof.
  unfold index_put. revert y vals.
  induction offs as [|o offs IH]; intros y vals; [done|].
  destruct vals as [|v vals]; [done|]. simpl.
  rewrite IH. apply length_insert.
Qed.

Lemma index_put_other y offs vals k :
  k ∉ offs -> index_put y offs vals !! k = y !! k.
Proof.
  unfold index_put. revert y vals.
  induction offs as [|o offs IH]; intros y vals Hk; [done|].
  destruct vals as [|v vals]; [done|]. simpl.
  rewrite IH by set_solver.
  apply list_lookup_insert_ne. set_solver.
Qed.

Lemma index_put_at y offs vals j k v :
  NoDup offs -> offs !! j = Some k -> vals !! j = Some v -> k < length y ->
  index_put y offs vals !! k = Some v.
Proof.
  unfold index_put. revert y vals j.
  induction offs as [|o offs IH]; intros y vals j Hnd Ho Hv Hk; [done|].
  destruct vals as [|v0 vals]; [done|].
  apply NoDup_cons in Hnd as [Hno Hnd]. simpl.
  destruct j as [|j]; simpl in *.
  - injection Ho as ->. injection Hv as ->.
    change (index_put (<[k:=v]> y) offs vals !! k = Some v).
    rewrite index_put_other by done.
    by apply list_lookup_insert_eq.
  - apply (IH _ _ j); auto. by rewrite length_insert.
Qed.

(** ** The mask of [gaussian_mutation] *)

Lemma Qltb_lt a b : Qltb a b = true <-> (a < b)%Q.
Proof.
  unfold Qltb. rewrite negb_true_iff.
  split.
  - intros H. apply Qnot_le_lt. intros Hle.
    apply Qle_bool_iff in Hle. congruence.
  - intros H. destruct (Qle_bool b a) eqn:E; [|done].
    apply Qle_bool_iff in E. exfalso. eapply Qlt_not_le; eauto.
Qed.

Lemma mask_positions_spec m rate k :
  k ∈ mask_positions m rate <-> k < length m /\ Qltb (nth k m 0%Q) rate = true.
Proof.
  unfold mask_positions. rewrite list_elem_of_In, filter_In, in_seq.
  intuition lia.
Qed.

Lemma mask_positions_NoDup m rate : NoDup (mask_positions m rate).
Proof.
  unfold mask_positions. apply NoDup_ListNoDup, List.NoDup_filter, seq_NoDup.
Qed.

Lemma mask_positions_rank m rate k :
  k < length m -> Qltb (nth k m 0%Q) rate = true ->
  mask_positions m rate !! selected_before m rate k = Some k.
Proof.
  intros Hk Hsel. unfold mask_positions, selected_before.
  replace (length m) with (k + S (length m - S k)) by lia.
  rewrite seq_app, List.filter_app. simpl. rewrite Hsel.
  rewrite lookup_app_r by lia. by rewrite Nat.sub_diag.
Qed.

Lemma mask_positions_none m rate :
  Forall (fun v => (rate <= v)%Q) m -> mask_positions m rate = [].
Proof.
  intros Hall. destruct (mask_positions m rate) as [|k l] eqn:E; [done|].
  assert (Hin : k ∈ mask_positions m rate) by (rewrite E; left).
  apply mask_positions_spec in Hin as [Hk Hlt].
  apply Qltb_lt in Hlt. rewrite Forall_forall in Hall.
  assert (Hge : (rate <= nth k m 0)%Q).
  { apply Hall. apply list_elem_of_In, nth_In. lia. }
  exfalso. eapply Qlt_not_le; eauto.
Qed.

Lemma where_offsets sh m rate :
  length m = numel sh ->
  map (ravel sh) (torch_where_lt (Tensor sh m) rate) = mask_positions m rate.
Proof.
  intros Hlen. unfold torch_where_lt. simpl. rewrite map_map.
  rewrite <- (map_id (mask_positions m rate)) at 2.
  apply map_ext_in. intros k Hk.
  apply list_elem_of_In, mask_positions_spec in Hk as [Hk _].
  apply ravel_unravel. lia.
Qed.

Lemma where_take sh m rate r :
  length sh <= r ->
  map (take r) (torch_where_lt (Tensor sh m) rate) = torch_where_lt (Tensor sh m) rate.
Proof.
  intros Hr. unfold torch_where_lt. simpl.
  rewrite <- (map_id (map (unravel sh) _)) at 2.
  apply map_ext_in. intros idx Hin.
  apply in_map_iff in Hin as (k & <- & _).
  apply take_ge. rewrite unravel_length. lia.
Qed.

Lemma index_add_where x m rate delta s :
  wf_tensor x -> length m = length (data x) ->
  index_add x (torch_where_lt (Tensor (shape x) m) rate) delta s =
  Ok (Tensor (shape x)
        (index_put (data x) (mask_positions m rate)
           (zip_with Qplus
              (map (fun o => nth o (data x) 0%Q) (mask_positions m rate))
              delta)), s).
Proof.
  intros Hwf Hlen. unfold index_add.
  rewrite where_offsets by (unfold wf_tensor in Hwf; lia).
  replace (forallb _ _) with true; [reflexivity|].
  symmetry. apply forallb_forall. intros k Hk.
  apply list_elem_of_In, mask_positions_spec in Hk as [Hk _].
  apply Nat.ltb_lt. lia.
Qed.

Lemma clamp_or_return_data h z :
  data (clamp_or_return h z) = map (clamp_or_keep h) (data z).
Proof.
  unfold clamp_or_return, clamp_or_keep.
  destruct (unclamped h); simpl; [by rewrite map_id | done].
Qed.

Lemma clamp_or_return_shape h z : shape (clamp_or_return h z) = shape z.
Proof. unfold clamp_or_return. by destruct (unclamped h). Qed.

Lemma clamp_elt_bounds lo hi v :
  (lo <= hi)%Q -> (lo <= clamp_elt lo hi v)%Q /\ (clamp_elt lo hi v <= hi)%Q.
Proof.
  intros Hle. unfold clamp_elt. split.
  - apply Q.min_glb; [apply Q.le_max_r | exact Hle].
  - apply Q.le_min_r.
Qed.

(** The value of [gaussian_mutation] on ranks 1 to 3, in closed form. *)
Lemma gaussian_mutation_eq s x :
  wf_tensor x -> 1 <= length (shape x) <= 3 ->
  let m := mask_samples s (length (data x)) in
  let pos := mask_positions m (mutation_rate (hyper s)) in
  let delta :=
    map (Qmult (sigma (hyper s)))
        (map (sample (torch_normal (gen s)))
             (seq (cursor (torch_normal (gen s))) (length pos))) in
  gaussian_mutation x s =
  Ok (clamp_or_return (hyper s)
        (Tensor (shape x)
           (index_put (data x) pos
              (zip_with Qplus (map (fun o => nth o (data x) 0%Q) pos) delta))),
      torch_advanced (length (data x)) (length pos) s).
Proof.
  intros Hwf Hrank m pos delta.
  assert (Hm : length m = length (data x)).
  { unfold m, mask_samples. by rewrite length_map, length_seq. }
  assert (Hidx : length (torch_where_lt (Tensor (shape x) m)
                           (mutation_rate (hyper s))) = length pos).
  { unfold torch_where_lt. simpl. by rewrite length_map. }
  unfold gaussian_mutation, bind, get, rand_like, normal_, ret, draw; simpl.
  fold (mask_samples s (length (data x))). fold m.
  rewrite Hidx.
  destruct (length (shape x)) as [|[|[|[|r]]]] eqn:Er; try lia.
  - rewrite where_take by (simpl; lia).
    rewrite index_add_where by done. reflexivity.
  - rewrite where_take by (simpl; lia).
    rewrite index_add_where by done. reflexivity.
  - rewrite where_take by (simpl; lia).
    rewrite index_add_where by done. reflexivity.
Qed.

(** ** [gaussian_mutation] *)

(** C6 (amended).  On a tensor of rank 1, 2 or 3 [gaussian_mutation]
    returns a tensor of the same shape; it selects exactly the elements
    whose own uniform sample is below [mutation_rate], reads as many
    normal samples as there are selected elements, adds the scaled
    sample of its rank to each selected element and leaves the others
    alone; the optional clamp is then applied to every element, selected
    or not.  With [mutation_rate = 0] the output is the clamped input,
    and it is the input itself when no bound is truthy. *)
Theorem gaussian_mutation_selected_only s x :
  wf_tensor x -> 1 <= length (shape x) <= 3 ->
  let h := hyper s in
  let m := mask_samples s (length (data x)) in
  let noise j := (sigma h * sample (torch_normal (gen s))
                              (cursor (torch_normal (gen s)) + j))%Q in
  exists y s',
    gaussian_mutation x s = Ok (y, s') /\
    shape y = shape x /\
    cursor (torch_normal (gen s')) =
      cursor (torch_normal (gen s)) + length (mask_positions m (mutation_rate h)) /\
    (forall k xk, data x !! k = Some xk ->
       data y !! k =
         Some (clamp_or_keep h
                 (if Qltb (nth k m 0%Q) (mutation_rate h)
                  then (xk + noise (selected_before m (mutation_rate h) k))%Q
                  else xk))) /\
    ((mutation_rate h == 0)%Q ->
     (forall i, (0 <= sample (torch_uniform (gen s)) i)%Q) ->
     data y = map (clamp_or_keep h) (data x) /\
     (unclamped h = true -> y = x)).
Proof.
  intros Hwf Hrank h m noise.
  eexists _, _. split; [apply gaussian_mutation_eq; assumption|].
  fold h. fold m.
  set (pos := mask_positions m (mutation_rate h)).
  assert (Hm : length m = length (data x)).
  { unfold m, mask_samples. by rewrite length_map, length_seq. }
  split; [by rewrite clamp_or_return_shape|].
  split; [reflexivity|].
  split.
  - intros k xk Hk.
    rewrite clamp_or_return_data, lookup_map. simpl.
    assert (Hlt : k < length (data x)) by (eapply lookup_lt_Some; eauto).
    destruct (Qltb (nth k m 0%Q) (mutation_rate h)) eqn:Esel.
    + pose proof (mask_positions_rank m (mutation_rate h) k
                    ltac:(lia) Esel) as Hrk.
      fold pos in Hrk.
      set (j := selected_before m (mutation_rate h) k) in *.
      assert (Hj : j < length pos) by (eapply lookup_lt_Some; eauto).
      erewrite index_put_at; [reflexivity| apply mask_positions_NoDup
                              | exact Hrk | | exact Hlt].
      rewrite lookup_zip_with, !lookup_map, Hrk. simpl.
      rewrite lookup_seq_lt by exact Hj. simpl.
      by rewrite (nth_lookup_Some _ _ _ _ Hk).
    + rewrite index_put_other; [by rewrite Hk|].
      intros Hin. apply mask_positions_spec in Hin as [_ Hin]. congruence.
  - intros Hrate Hunif.
    assert (Hnone : pos = []).
    { apply mask_positions_none. unfold m, mask_samples.
      apply Forall_forall. intros v Hv.
      apply list_elem_of_In, in_map_iff in Hv as (i & <- & _).
      rewrite Hrate. apply Hunif. }
    split.
    + rewrite clamp_or_return_data. simpl. by rewrite Hnone.
    + intros Hun. unfold clamp_or_return. fold h. rewrite Hun, Hnone.
      simpl. by destruct x.
Qed.

Lemma gaussian_mutation_selected_only_witness :
  let s := bare_operator (clamped_hyperparams PyFalse PyFalse (1 # 2))
                         (constant_gen 1 (1 # 4)) in
  let x := Tensor [2; 2] [1; 2; 3; 4]%Q in
  exists y s',
    gaussian_mutation x s = Ok (y, s') /\
    shape y = [2; 2] /\
    cursor (torch_normal (gen s')) = 4 /\
    data y !! 3 = Some (4 + 1 * 1)%Q.
Proof.
  intros s x.
  assert (Hwf : wf_tensor x) by reflexivity.
  assert (Hrank : 1 <= length (shape x) <= 3) by (simpl; lia).
  pose proof (gaussian_mutation_selected_only s x Hwf Hrank) as H.
  cbv zeta in H. destruct H as (y & s' & E & Hs & Hc & Hp & _).
  exists y, s'. split; [exact E|]. split; [exact Hs|].
  split; [exact Hc|]. exact (Hp 3 4%Q eq_refl).
Defined.

(** C6 as worded fails once clamp bounds are set: with
    [mutation_rate = 0] nothing is selected, yet the element 5 comes
    back as 1 under the bounds [-1, 1]. *)
Lemma gaussian_mutation_rate_zero_clamps :
  let s := bare_operator (clamped_hyperparams (PyNum (-1)) (PyNum 1) 0)
                         (constant_gen 1 (1 # 4)) in
  mutation_rate (hyper s) = 0%Q /\
  exists s', gaussian_mutation (Tensor [1] [5%Q]) s = Ok (Tensor [1] [1%Q], s') /\
             Tensor [1] [1%Q] <> Tensor [1] [5%Q].
Proof.
  intros s. split; [reflexivity|].
  eexists. split; [vm_compute; reflexivity | discriminate].
Qed.

(** ** [iso_dd] *)

Lemma iso_line_lookup b x a y k xk ak yk :
  x !! k = Some xk -> a !! k = Some ak -> y !! k = Some yk ->
  iso_line b x a y !! k = Some ((xk + ak) + b * (yk - xk))%Q.
Proof.
  revert a y k.
  induction x as [|x0 x IH]; intros a y k Hx Ha Hy; [done|].
  destruct a as [|a0 a]; [done|]. destruct y as [|y0 y]; [done|].
  destruct k as [|k]; simpl in *.
  - congruence.
  - by apply IH.
Qed.

(** C5 (amended).  For same-shape operands [iso_dd] returns a tensor of
    that shape whose every element is [x + a + U * (y - x)], with [a]
    the element's own scaled normal sample and [U] one scaled sample of
    numpy's generator, read once per call and shared by all elements.
    That value is returned as it is exactly when both bounds are falsy
    ([False] or zero); as soon as one bound is truthy the result is
    [torch.clamp]ed between the two bounds, a [False] bound counting as
    zero, and then lies within the bounds whenever they are ordered. *)
Theorem iso_dd_formula_and_clamp s x y :
  wf_tensor x -> wf_tensor y -> shape x = shape y ->
  let h := hyper s in
  let U := (line_sigma h * sample (numpy_normal (gen s))
                             (cursor (numpy_normal (gen s))))%Q in
  let a k := (iso_sigma h * sample (torch_normal (gen s))
                              (cursor (torch_normal (gen s)) + k))%Q in
  let lo := as_number (self_min h) in
  let hi := as_number (self_max h) in
  exists z s',
    iso_dd x y s = Ok (z, s') /\
    shape z = shape x /\
    cursor (numpy_normal (gen s')) = cursor (numpy_normal (gen s)) + 1 /\
    (forall k xk yk, data x !! k = Some xk -> data y !! k = Some yk ->
       let raw := ((xk + a k) + U * (yk - xk))%Q in
       (truthy (self_max h) = false -> truthy (self_min h) = false ->
        data z !! k = Some raw) /\
       (truthy (self_max h) = true \/ truthy (self_min h) = true ->
        data z !! k = Some (clamp_elt lo hi raw))) /\
    (truthy (self_max h) = true \/ truthy (self_min h) = true ->
     (lo <= hi)%Q ->
     forall v, v ∈ data z -> (lo <= v)%Q /\ (v <= hi)%Q).
Proof.
  intros Hx Hy Hsh h U a lo hi.
  unfold iso_dd, bind, get, normal_, np_random_normal, ret, draw. simpl.
  rewrite bool_decide_true by exact Hsh.
  eexists _, _. split; [reflexivity|].
  split; [by rewrite clamp_or_return_shape|].
  split; [reflexivity|].
  assert (Hun : unclamped h = true <->
                truthy (self_max h) = false /\ truthy (self_min h) = false).
  { unfold unclamped. rewrite andb_true_iff, !negb_true_iff. tauto. }
  split.
  - intros k xk yk Hxk Hyk.
    set (raw := ((xk + a k) + U * (yk - xk))%Q).
    assert (Hk : k < length (data x)) by (eapply lookup_lt_Some; eauto).
    assert (Hraw : iso_line U (data x)
                     (map (Qmult (iso_sigma h))
                        (map (sample (torch_normal (gen s)))
                           (seq (cursor (torch_normal (gen s)))
                                (length (data x)))))
                     (data y) !! k = Some raw).
    { apply iso_line_lookup; [exact Hxk| |exact Hyk].
      rewrite !lookup_map, lookup_seq_lt by exact Hk. reflexivity. }
    rewrite clamp_or_return_data, lookup_map. simpl.
    fold h. fold U. rewrite Hraw. simpl. unfold clamp_or_keep.
    split.
    + intros Hmax Hmin. by rewrite (proj2 Hun (conj Hmax Hmin)).
    + intros Hor. destruct (unclamped h) eqn:E; [|reflexivity].
      destruct (proj1 Hun eq_refl) as [E1 E2]. destruct Hor; congruence.
  - intros Hor Hle v Hv.
    rewrite clamp_or_return_data in Hv.
    apply list_elem_of_In, in_map_iff in Hv as (w & <- & _).
    unfold clamp_or_keep. fold h. destruct (unclamped h) eqn:E.
    + destruct (proj1 Hun eq_refl) as [E1 E2]. destruct Hor; congruence.
    + apply clamp_elt_bounds. exact Hle.
Qed.

Lemma iso_dd_formula_and_clamp_witness :
  let s := bare_operator (clamped_hyperparams (PyNum (-1)) (PyNum 1) 0)
                         (constant_gen 1 (1 # 4)) in
  let x := Tensor [2] [0; 3]%Q in
  let y := Tensor [2] [1; 1]%Q in
  exists z s',
    iso_dd x y s = Ok (z, s') /\
    forall v, v ∈ data z -> (-1 <= v)%Q /\ (v <= 1)%Q.
Proof.
  intros s x y.
  assert (Hx : wf_tensor x) by reflexivity.
  assert (Hy : wf_tensor y) by reflexivity.
  assert (Hsh : shape x = shape y) by reflexivity.
  pose proof (iso_dd_formula_and_clamp s x y Hx Hy Hsh) as H.
  cbv zeta in H. destruct H as (z & s' & E & _ & _ & _ & Hb).
  exists z, s'. split; [exact E|].
  apply Hb; [left; reflexivity | discriminate].
Defined.

(** C5 as worded fails when a single bound is set: with [max_gene = 1]
    and [min_gene] left at [False], the element -5 is not returned
    unclamped but raised to 0. *)
Lemma iso_dd_clamps_with_one_bound :
  let h := clamped_hyperparams PyFalse (PyNum 1) 0 in
  let s := bare_operator h (constant_gen 0 0) in
  let x := Tensor [1] [(-5)%Q] in
  ~ (bound_configured (self_max h) /\ bound_configured (self_min h)) /\
  iso_line 0 (data x) [0%Q] (data x) = [(-5 + 0 + 0 * (-5 - -5))%Q] /\
  exists s', iso_dd x x s = Ok (Tensor [1] [0%Q], s') /\
             ~ (0 == -5 + 0 + 0 * (-5 - -5))%Q.
Proof.
  intros h s x. split; [intros [_ []]|].
  split; [reflexivity|].
  eexists. split; [vm_compute; reflexivity | discriminate].
Qed.

(** ** Reasoning about methods *)

Lemma bind_Ok {A B} (m : M A) (k : A -> M B) s b s2 :
  bind m k s = Ok (b, s2) ->
  exists a s1, m s = Ok (a, s1) /\ k a s1 = Ok (b, s2).
Proof.
  unfold bind. destruct (m s) as [[a s1]|e]; [|discriminate]. eauto.
Qed.

Lemma lift_Ok {A} (r : result A) s a s1 :
  lift r s = Ok (a, s1) -> r = Ok a /\ s1 = s.
Proof. unfold lift. destruct r; [|discriminate]. by intros [= -> ->]. Qed.

Lemma keeps_refl s : s = set_log (log s) (set_gen (gen s) s).
Proof. by destruct s. Qed.

Lemma keeps_ret {A} (a : A) : keeps_object (ret a).
Proof. intros s a' s1 [= <- <-]. apply keeps_refl. Qed.

Lemma keeps_raise {A} e : keeps_object (@raise A e).
Proof. intros s a s1. discriminate. Qed.

Lemma keeps_get : keeps_object get.
Proof. intros s a s1 [= <- <-]. apply keeps_refl. Qed.

Lemma keeps_lift {A} (r : result A) : keeps_object (lift r).
Proof. intros s a s1 H. apply lift_Ok in H as [_ ->]. apply keeps_refl. Qed.

Lemma keeps_bind {A B} (m : M A) (k : A -> M B) :
  keeps_object m -> (forall a, keeps_object (k a)) -> keeps_object (bind m k).
Proof.
  intros Hm Hk s b s2 H. apply bind_Ok in H as (a & s1 & H1 & H2).
  apply Hm in H1. apply Hk in H2. rewrite H2, H1. by destruct s.
Qed.

Lemma keeps_log_debug msg : keeps_object (log_debug msg).
Proof. intros s a s1 [= <- <-]. by destruct s. Qed.

Lemma keeps_normal_ n std : keeps_object (normal_ n std).
Proof. intros s a s1 [= <- <-]. by destruct s. Qed.

Lemma keeps_rand_like y : keeps_object (rand_like y).
Proof. intros s a s1 [= <- <-]. by destruct s. Qed.

Lemma keeps_np_random_normal scale : keeps_object (np_random_normal scale).
Proof. intros s a s1 [= <- <-]. by destruct s. Qed.

Lemma keeps_list_of_set X : keeps_object (list_of_set X).
Proof. intros s l s' H. unfold list_of_set in H. by injection H as <- <-. Qed.

Lemma arrange_NoDup f X : NoDup (arrange f X).
Proof.
  unfold arrange. case_bool_decide as H; [apply H | apply NoDup_elements].
Qed.

Lemma arrange_set f X : (list_to_set (arrange f X) : gset nat) = X.
Proof.
  unfold arrange. case_bool_decide as H; [apply H|].
  apply set_eq. intros k. by rewrite elem_of_list_to_set, elem_of_elements.
Qed.

(** Every duplicate-free listing of a set is the answer to some
    proposal. *)
Lemma arrange_complete (X : gset nat) l :
  NoDup l -> (list_to_set l : gset nat) = X -> arrange (fun _ => l) X = l.
Proof.
  intros Hnd Hset. unfold arrange. by rewrite bool_decide_true.
Qed.

Lemma list_of_set_Ok X s l s' :
  list_of_set X s = Ok (l, s') ->
  NoDup l /\ (list_to_set l : gset nat) = X.
Proof.
  unfold list_of_set. intros H. injection H as <- <-.
  split; [apply arrange_NoDup | apply arrange_set].
Qed.

Lemma keeps_np_random_choice a size : keeps_object (np_random_choice a size).
Proof.
  intros s x s1. unfold np_random_choice.
  destruct (size <? 0)%Z; [discriminate|].
  destruct (length a <? Z.to_nat size); [discriminate|].
  intros [= <- <-]. by destruct s.
Qed.

Ltac keeps_step :=
  first
    [ apply keeps_ret | apply keeps_raise | apply keeps_get | apply keeps_lift
    | apply keeps_log_debug | apply keeps_normal_ | apply keeps_rand_like
    | apply keeps_np_random_normal | apply keeps_np_random_choice
    | apply keeps_bind; [|intros ?]
    | match goal with
      | |- keeps_object (if ?b then _ else _) => destruct b
      | |- keeps_object (match ?x with _ => _ end) => destruct x
      end ].

Lemma keeps_iso_dd x y : keeps_object (iso_dd x y).
Proof. unfold iso_dd. repeat keeps_step. Qed.

Lemma keeps_index_add y idx delta : keeps_object (index_add y idx delta).
Proof. unfold index_add. repeat keeps_step. Qed.

Lemma keeps_gaussian_mutation x : keeps_object (gaussian_mutation x).
Proof.
  unfold gaussian_mutation.
  repeat first [apply keeps_index_add | keeps_step].
Qed.

Lemma keeps_call_crossover op x y : keeps_object (call_crossover op x y).
Proof. unfold call_crossover. repeat first [apply keeps_iso_dd | keeps_step]. Qed.

Lemma keeps_call_mutation op x : keeps_object (call_mutation op x).
Proof.
  unfold call_mutation. repeat first [apply keeps_gaussian_mutation | keeps_step].
Qed.

Lemma keeps_batch_crossover_loop names bx by_ bz op :
  keeps_object (batch_crossover_loop names bx by_ bz op).
Proof.
  revert bz. induction names as [|n names IH]; intros bz; simpl.
  - apply keeps_ret.
  - repeat first [apply IH | apply keeps_call_crossover | keeps_step].
Qed.

Lemma keeps_batch_mutation_loop names bx y op :
  keeps_object (batch_mutation_loop names bx y op).
Proof.
  revert y. induction names as [|n names IH]; intros y; simpl.
  - apply keeps_ret.
  - repeat first [apply IH | apply keeps_call_mutation | keeps_step].
Qed.

Lemma keeps_evo ax ay cop mop : keeps_object (evo ax ay cop mop).
Proof.
  unfold evo, batch_crossover, batch_mutation.
  repeat first [ apply keeps_batch_crossover_loop
               | apply keeps_batch_mutation_loop | keeps_step ].
Qed.

(** ** Sampling without replacement *)

Lemma choice_length pool rs :
  length rs <= length pool ->
  length (choice_without_replacement pool rs) = length rs.
Proof.
  revert pool. induction rs as [|r rs IH]; intros pool Hlen; [done|].
  simpl in *.
  destruct (pool !! (r mod length pool)) as [a|] eqn:E.
  - simpl. rewrite IH; [done|].
    rewrite length_delete by (by eexists). lia.
  - apply lookup_ge_None in E.
    assert (r mod length pool < length pool)
      by (apply Nat.mod_upper_bound; lia).
    lia.
Qed.

Lemma choice_subset pool rs k :
  k ∈ choice_without_replacement pool rs -> k ∈ pool.
Proof.
  revert pool. induction rs as [|r rs IH]; intros pool Hk; simpl in Hk.
  - by apply elem_of_nil in Hk.
  - destruct (pool !! (r mod length pool)) as [a|] eqn:E.
    + apply elem_of_cons in Hk as [->|Hk].
      * eapply list_elem_of_lookup_2; eauto.
      * apply IH in Hk. eapply elem_of_sublist; [exact Hk|].
        apply sublist_delete.
    + by apply elem_of_nil in Hk.
Qed.

Lemma choice_NoDup pool rs :
  NoDup pool -> NoDup (choice_without_replacement pool rs).
Proof.
  revert pool. induction rs as [|r rs IH]; intros pool Hnd; simpl.
  - constructor.
  - destruct (pool !! (r mod length pool)) as [a|] eqn:E; [|constructor].
    set (i := r mod length pool) in *.
    assert (Hsplit : pool = take i pool ++ a :: drop (S i) pool)
      by (symmetry; by apply take_drop_middle).
    assert (Hdel : delete i pool = take i pool ++ drop (S i) pool)
      by apply delete_take_drop.
    rewrite Hsplit in Hnd.
    apply NoDup_app in Hnd as (Hl & Hlr & Hr).
    apply NoDup_cons in Hr as [Ha Hr].
    constructor.
    + intros Hin. apply choice_subset in Hin. rewrite Hdel in Hin.
      apply elem_of_app in Hin as [Hin|Hin]; [|done].
      apply (Hlr a Hin). left.
    + apply IH. rewrite Hdel. apply NoDup_app. split; [done|].
      split; [|done]. intros x Hx Hx'. apply (Hlr x Hx). by right.
Qed.

Lemma np_random_choice_Ok a size s x s1 :
  np_random_choice a size s = Ok (x, s1) ->
  (0 <= size)%Z /\ length x = Z.to_nat size /\
  (forall k, k ∈ x -> k ∈ a) /\ (NoDup a -> NoDup x).
Proof.
  unfold np_random_choice.
  destruct (size <? 0)%Z eqn:E1; [discriminate|].
  destruct (length a <? Z.to_nat size) eqn:E2; [discriminate|].
  apply Z.ltb_ge in E1. apply Nat.ltb_ge in E2.
  intros [= <- <-]. split; [done|].
  split; [|split].
  - rewrite choice_length; by rewrite length_map, length_seq.
  - intros k. apply choice_subset.
  - apply choice_NoDup.
Qed.

(** ** [np.repeat] and the reshape *)

Lemma bind_replicate_length (l : list nat) n :
  length (l ≫= replicate n) = length l * n.
Proof.
  induction l as [|a l IH]; [done|].
  rewrite bind_cons, length_app, length_replicate, IH. simpl. lia.
Qed.

Lemma bind_replicate_set (l : list nat) n :
  0 < n -> (list_to_set (l ≫= replicate n) : gset nat) = list_to_set l.
Proof.
  intros Hn. apply set_eq. intros k.
  rewrite !elem_of_list_to_set, list_elem_of_bind.
  split.
  - intros (a & Hk & Ha). apply elem_of_replicate in Hk as [-> _]. done.
  - intros Hk. exists k. split; [|done]. apply elem_of_replicate. split; [done|lia].
Qed.

Lemma chunks_length {A} n rows (l : list A) : length (chunks n rows l) = rows.
Proof.
  revert l. induction rows as [|r IH]; intros l; [done|].
  simpl. by rewrite IH.
Qed.

Lemma chunks_row_length {A} n rows (l : list A) row :
  rows * n <= length l -> row ∈ chunks n rows l -> length row = n.
Proof.
  revert l. induction rows as [|r IH]; intros l Hlen Hrow; simpl in *.
  - by apply elem_of_nil in Hrow.
  - apply elem_of_cons in Hrow as [->|Hrow].
    + rewrite length_take. lia.
    + apply (IH (drop n l)); [|done]. rewrite length_drop. lia.
Qed.

Lemma np_reshape_Ok {A} (l : list A) m rows :
  np_reshape l m = Ok rows ->
  (0 < m)%Z /\ length rows * Z.to_nat m = length l /\
  Forall (fun row => length row = Z.to_nat m) rows.
Proof.
  unfold np_reshape. destruct (m <=? 0)%Z eqn:E1; [discriminate|].
  apply Z.leb_gt in E1.
  destruct (length l mod Z.to_nat m =? 0) eqn:E2; [|discriminate].
  apply Nat.eqb_eq in E2. intros [= <-].
  assert (Hm : Z.to_nat m <> 0) by lia.
  pose proof (Nat.div_mod (length l) (Z.to_nat m) Hm) as Hdm.
  split; [done|]. rewrite chunks_length. split; [lia|].
  apply Forall_forall. intros row Hrow.
  eapply chunks_row_length; [|exact Hrow]. lia.
Qed.

(** ** One round of [evolve_batch], step by step *)

Lemma mapR_length {A B} (f : A -> result B) l l' :
  mapR f l = Ok l' -> length l' = length l.
Proof.
  revert l'. induction l as [|a l IH]; intros l'; simpl.
  - by intros [= <-].
  - destruct (f a); [|discriminate].
    destruct (mapR f l); [|discriminate].
    intros [= <-]. simpl. by rewrite (IH _ eq_refl).
Qed.

Lemma np_repeat_Ok ids repeats xr :
  np_repeat ids repeats = Ok xr ->
  (0 <= repeats)%Z /\ xr = ids ≫= replicate (Z.to_nat repeats).
Proof.
  unfold np_repeat. destruct (repeats <? 0)%Z eqn:E; [discriminate|].
  apply Z.ltb_ge in E. by intros [= <-].
Qed.

Lemma update_mlps_length b mlps : length (update_mlps b mlps) = length mlps.
Proof. unfold update_mlps. apply length_imap. Qed.

Lemma keeps_draw_parents pool B : keeps_object (draw_parents pool B).
Proof. unfold draw_parents. repeat keeps_step. Qed.

Lemma draw_parents_Ok pool B s x y xr yr s1 :
  NoDup pool ->
  draw_parents pool B s = Ok ((x, y, xr, yr), s1) ->
  forall u z, parents_of s pool B (Round x y xr yr u z).
Proof.
  intros Hnd H u z. unfold draw_parents in H.
  apply bind_Ok in H as (self & s0 & Hget & H). injection Hget as <- <-.
  unfold parents_of. simpl.
  destruct (mutation_op s) as [mop|], (crossover_op s) as [cop|].
  - apply bind_Ok in H as (x' & s2 & Hx & H).
    apply bind_Ok in H as (y' & s3 & Hy & H).
    apply bind_Ok in H as (xr' & s4 & Hxr & H).
    apply bind_Ok in H as (yr' & s5 & Hyr & H).
    injection H as <- <- <- <- <-.
    apply lift_Ok in Hxr as [Hxr _]. apply lift_Ok in Hyr as [Hyr _].
    apply np_repeat_Ok in Hxr as [Hm ->]. apply np_repeat_Ok in Hyr as [_ ->].
    apply np_random_choice_Ok in Hx as (? & ? & ? & ?).
    apply np_random_choice_Ok in Hy as (? & ? & ? & ?).
    unfold drawn_from. auto 10.
  - apply bind_Ok in H as (x' & s2 & Hx & H).
    apply bind_Ok in H as (xr' & s4 & Hxr & H).
    injection H as <- <- <- <- <-.
    apply lift_Ok in Hxr as [Hxr _].
    apply np_repeat_Ok in Hxr as [Hm ->].
    apply np_random_choice_Ok in Hx as (? & ? & ? & ?).
    unfold drawn_from. auto 10.
  - apply bind_Ok in H as (x' & s2 & Hx & H).
    apply bind_Ok in H as (y' & s3 & Hy & H).
    apply bind_Ok in H as (xr' & s4 & Hxr & H).
    apply bind_Ok in H as (yr' & s5 & Hyr & H).
    injection H as <- <- <- <- <-.
    apply lift_Ok in Hxr as [Hxr _]. apply lift_Ok in Hyr as [Hyr _].
    apply np_repeat_Ok in Hxr as [Hm ->]. apply np_repeat_Ok in Hyr as [_ ->].
    apply np_random_choice_Ok in Hx as (? & ? & ? & ?).
    apply np_random_choice_Ok in Hy as (? & ? & ? & ?).
    unfold drawn_from. auto 10.
  - injection H as <- <- <- <- <-. done.
Qed.

Ltac field_of f H :=
  let F := fresh "F" in pose proof (f_equal f H) as F; simpl in F.

(** Every returning call of [evolve_batch] is a skipped round or a
    submitting round. *)
Lemma evolve_batch_inv init s o s' :
  evolve_batch init s = Ok (o, s') ->
  (o = Skipped /\ skipped init s s') \/
  (exists r, o = Submitted r /\ submitted init s r s').
Proof.
  intros H. unfold evolve_batch in H.
  apply bind_Ok in H as (self & s0 & Hget & H).
  injection Hget as <- <-.
  apply bind_Ok in H as (sel & s1 & Hsel & H).
  assert (Hs1 : sel = (batch_size_of init s, candidate_keys init s) /\
                s1 = set_log (log s ++ [(Debug, mode_message init)]) s).
  { destruct init; injection Hsel as <- <-; done. }
  destruct Hs1 as [-> ->]. clear Hsel.
  cbn [fst snd] in H.
  fold (free_keys_of init s) in H.
  destruct (Z.of_nat (length (free_keys_of init s)) <? batch_size_of init s)%Z
    eqn:Elt.
  - left. apply Z.ltb_lt in Elt.
    injection H as <- <-. split; [done|]. split; [done|].
    destruct s. simpl. by rewrite <- app_assoc.
  - right. apply Z.ltb_ge in Elt.
    apply bind_Ok in H as ([[[x y] xr] yr] & s2 & Hids & H).
    pose proof (keeps_draw_parents _ _ _ _ _ Hids) as K2.
    assert (Hpar := fun Hp => draw_parents_Ok _ _ _ _ _ _ _ _ Hp Hids).
    specialize (Hpar ltac:(apply NoDup_elements)).
    apply bind_Ok in H as ([] & s3 & Hmod & H). injection Hmod as <-.
    apply bind_Ok in H as (actors_x_evo & s4 & Hx & H).
    apply lift_Ok in Hx as [Hx ->].
    apply bind_Ok in H as (actors_y_evo & s4 & Hy & H).
    apply lift_Ok in Hy as [Hy ->].
    apply bind_Ok in H as (bx & s4 & Hbx & H).
    apply lift_Ok in Hbx as [Hbx ->].
    apply bind_Ok in H as (by_ & s4 & Hby & H).
    apply lift_Ok in Hby as [Hby ->].
    apply bind_Ok in H as (actor_z & s4 & Hevo & H).
    apply keeps_evo in Hevo.
    apply bind_Ok in H as (uniq & s5 & Hu & H).
    pose proof (keeps_list_of_set _ _ _ _ Hu) as K5.
    apply list_of_set_Ok in Hu as [Hund Hus].
    apply bind_Ok in H as (cached & s6 & Hc & H).
    apply lift_Ok in Hc as [Hc ->].
    apply bind_Ok in H as (rows & s6 & Hr & H).
    apply lift_Ok in Hr as [Hr ->].
    apply bind_Ok in H as (cache & s6 & Hw & H).
    apply lift_Ok in Hw as [Hw ->].
    injection H as <- <-.
    eexists. split; [reflexivity|].
    field_of free_policy_keys Hevo. field_of free_policy_keys K2.
    field_of free_policy_keys K5.
    field_of queued_for_eval Hevo. field_of queued_for_eval K2.
    field_of queued_for_eval K5.
    field_of eval_in_queue Hevo. field_of eval_in_queue K2.
    field_of eval_in_queue K5.
    field_of signals Hevo. field_of signals K2. field_of signals K5.
    field_of object_id Hevo. field_of object_id K2. field_of object_id K5.
    field_of init_mode Hevo. field_of init_mode K2. field_of init_mode K5.
    field_of cfg Hevo. field_of cfg K2. field_of cfg K5.
    field_of crossover_op Hevo. field_of crossover_op K2.
    field_of crossover_op K5.
    field_of mutation_op Hevo. field_of mutation_op K2.
    field_of mutation_op K5.
    field_of elites_map Hevo. field_of elites_map K2. field_of elites_map K5.
    constructor; simpl; try congruence.
    + apply Hpar.
    + done.
    + exists cached, (update_mlps actor_z actors_x_evo).
      split; [done|]. split; [|done].
      rewrite update_mlps_length. eapply mapR_length, Hx.
    + split; congruence.
Qed.

(** ** The starved round *)

(** C2.  When fewer candidate keys are free than the batch size asks
    for, [evolve_batch] returns normally after logging the warning and
    touches nothing else: the free keys, the evaluation cache, the
    submission queue, the in-flight counter, the emitted signals and the
    generators are what they were. *)
Theorem evolve_batch_starved_is_noop init s :
  (Z.of_nat (size (free_policy_keys s ∩ list_to_set (candidate_keys init s)))
   < batch_size_of init s)%Z ->
  exists s',
    evolve_batch init s = Ok (Skipped, s') /\
    log s' = log s ++ [(Debug, mode_message init);
                       (Warn, Not_enough_free_policies
                                (length (free_keys_of init s))
                                (batch_size_of init s))] /\
    free_policy_keys s' = free_policy_keys s /\
    eval_cache s' = eval_cache s /\
    eval_in_queue s' = eval_in_queue s /\
    queued_for_eval s' = queued_for_eval s /\
    signals s' = signals s /\
    gen s' = gen s.
Proof.
  intros Hlt.
  change (size (free_policy_keys s ∩ list_to_set (candidate_keys init s)))
    with (length (free_keys_of init s)) in Hlt.
  apply Z.ltb_lt in Hlt.
  exists (set_log (log s ++ [(Debug, mode_message init);
                             (Warn, Not_enough_free_policies
                                      (length (free_keys_of init s))
                                      (batch_size_of init s))]) s).
  split; [|by destruct s].
  unfold evolve_batch, bind, get.
  destruct init; simpl;
    unfold free_keys_of, candidate_keys, batch_size_of in Hlt;
    simpl in Hlt; rewrite Hlt; simpl; unfold free_keys_of, candidate_keys,
    batch_size_of; simpl; destruct s; simpl; by rewrite <- app_assoc.
Qed.

Lemma evolve_batch_starved_is_noop_witness :
  let s := scenario (Some "iso_dd"%string) None [0; 1; 2] ∅ in
  exists s',
    evolve_batch true s = Ok (Skipped, s') /\
    free_policy_keys s' = free_policy_keys s /\
    queued_for_eval s' = 0%Z /\
    signals s' = [].
Proof.
  intros s.
  assert (H : (Z.of_nat (size (free_policy_keys s
                               ∩ list_to_set (candidate_keys true s)))
               < batch_size_of true s)%Z) by (vm_compute; reflexivity).
  destruct (evolve_batch_starved_is_noop true s H)
    as (s' & E & _ & Hf & _ & _ & Hq & Hs & _).
  exists s'. split; [exact E|]. split; [exact Hf|].
  split; [exact Hq | exact Hs].
Defined.

(** ** Parents read but not claimed *)

Lemma submitted_mpp_pos init s r s' :
  submitted init s r s' -> (0 < Cfg.mutations_per_policy (cfg s))%Z.
Proof.
  intros [_ _ _ _ (cached & flat & _ & _ & Hr & _) _ _ _ _ _ _ _].
  by apply np_reshape_Ok in Hr as [? _].
Qed.

Lemma submitted_claims_drawn_x init s r s' :
  submitted init s r s' ->
  free_policy_keys s' = free_policy_keys s ∖ list_to_set (drawn_x r).
Proof.
  intros Hsub. pose proof (submitted_mpp_pos _ _ _ _ Hsub) as Hm.
  rewrite (sub_free _ _ _ _ Hsub).
  pose proof (sub_parents _ _ _ _ Hsub) as Hp. unfold parents_of in Hp.
  destruct (mutation_op s), (crossover_op s).
  - destruct Hp as (_ & _ & _ & -> & _). rewrite bind_replicate_set; [done|lia].
  - destruct Hp as (_ & _ & _ & -> & _). rewrite bind_replicate_set; [done|lia].
  - destruct Hp as (_ & _ & _ & -> & _). rewrite bind_replicate_set; [done|lia].
  - destruct Hp as (-> & _ & -> & _). done.
Qed.

Lemma free_keys_of_free init s k :
  k ∈ free_keys_of init s -> k ∈ free_policy_keys s.
Proof.
  unfold free_keys_of. rewrite elem_of_elements, elem_of_intersection. tauto.
Qed.

(** C10.  With a crossover operator configured, a submitting round
    removes from the free keys the keys drawn as X parents and no other:
    a key drawn only as a Y parent was free before the round and is
    still free after it. *)
Theorem y_only_parents_stay_free init s r s' cop :
  crossover_op s = Some cop ->
  evolve_batch init s = Ok (Submitted r, s') ->
  free_policy_keys s' = free_policy_keys s ∖ list_to_set (drawn_x r) /\
  forall k, k ∈ drawn_y r -> k ∉ drawn_x r ->
            k ∈ free_policy_keys s /\ k ∈ free_policy_keys s'.
Proof.
  intros Hcop H.
  apply evolve_batch_inv in H as [[? _]|(r' & [= <-] & Hsub)]; [discriminate|].
  pose proof (submitted_claims_drawn_x _ _ _ _ Hsub) as Hfree.
  split; [exact Hfree|]. intros k Hy Hx.
  pose proof (sub_parents _ _ _ _ Hsub) as Hp. unfold parents_of in Hp.
  rewrite Hcop in Hp.
  assert (Hin : k ∈ free_policy_keys s).
  { apply (free_keys_of_free init).
    destruct (mutation_op s); destruct Hp as (_ & (_ & _ & _ & Hsub') & _);
      by apply Hsub'. }
  split; [exact Hin|]. rewrite Hfree, elem_of_difference, elem_of_list_to_set.
  tauto.
Qed.

Lemma y_only_parents_stay_free_witness :
  let r := round_of (evolve_batch true bootstrap) in
  let s' := state_of bootstrap (evolve_batch true bootstrap) in
  (97 ∈ drawn_y r /\ 97 ∉ drawn_x r) /\ 97 ∈ free_policy_keys s'.
Proof.
  intros r s'.
  assert (Hcop : crossover_op bootstrap = Some "iso_dd"%string) by reflexivity.
  assert (Hrun : evolve_batch true bootstrap = Ok (Submitted r, s'))
    by (vm_compute; reflexivity).
  assert (Hy : 97 ∈ drawn_y r).
  { apply list_elem_of_In. vm_compute. tauto. }
  assert (Hx : 97 ∉ drawn_x r).
  { rewrite list_elem_of_In. vm_compute. intuition discriminate. }
  split; [exact (conj Hy Hx)|].
  exact (proj2 (proj2 (y_only_parents_stay_free true bootstrap r s' _ Hcop Hrun)
                  97 Hy Hx)).
Defined.

(** ** The flag of the notification *)

Lemma init_sets_init_mode inherited c actors elites cache queue free oid kw g l s :
  __init__ inherited c actors elites cache queue free oid kw g l = Ok s ->
  init_mode s = true /\ queued_for_eval s = 0%Z /\ signals s = [].
Proof.
  unfold __init__.
  destruct (bool_decide _); [destruct (getattr _ _); [|discriminate]|];
    (destruct (bool_decide _); [destruct (getattr _ _); [|discriminate]|]);
    by intros [= <-].
Qed.

(** The flag sent by a submitting round is the attribute [init_mode],
    whatever mode the round ran in, and the round leaves it as it was. *)
Lemma evolve_batch_flag init s r s' :
  evolve_batch init s = Ok (Submitted r, s') ->
  signals s' = signals s ++ [to_evaluate (object_id s) (init_mode s)] /\
  init_mode s' = init_mode s.
Proof.
  intros H.
  apply evolve_batch_inv in H as [[? _]|(r' & [= <-] & Hsub)]; [discriminate|].
  split; [apply (sub_signals _ _ _ _ Hsub) | apply (sub_init_mode _ _ _ _ Hsub)].
Qed.

(** C4 fails on the code: past the bootstrap threshold the timer runs a
    steady-state round ([init = False], logged as mutating the elites),
    and the notification it emits still carries [True], the value
    [__init__] gave [init_mode] and that nothing updates. *)
Theorem steady_state_round_emits_bootstrap_flag :
  seeded = Ok seeded_operator /\
  (Z.of_nat (size (elites_map seeded_operator))
   <=? Cfg.random_init (cfg seeded_operator))%Z = false /\
  exists s',
    maybe_mutate_new_batch seeded_operator = Ok (tt, s') /\
    log s' = [(Warn, Not_using_mutation); (Debug, Mutating_from_elites);
              (Debug, Mutated_actors 4)] /\
    signals s' = [to_evaluate 1 true].
Proof.
  split; [vm_compute; reflexivity|].
  split; [vm_compute; reflexivity|].
  exists (state_of seeded_operator (maybe_mutate_new_batch seeded_operator)).
  split; [vm_compute; reflexivity|].
  split; vm_compute; reflexivity.
Qed.

(** ** [on_eval_results] *)

(** C8 (amended).  [on_eval_results] never raises and never looks at
    the sign of the counter: it subtracts the number of agents, logs one
    debug line that carries the new value, be it negative, logs no
    warning and changes nothing else; the calls that follow are then
    run as usual. *)
Theorem on_eval_results_logs_debug_only oid agents s :
  exists s',
    on_eval_results oid agents s = Ok (tt, s') /\
    queued_for_eval s' = (queued_for_eval s - Z.of_nat (length agents))%Z /\
    (exists line, log s' = log s ++ [line] /\ fst line = Debug /\
                  snd line = Received_processed_agents (length agents) oid
                               (queued_for_eval s')) /\
    s' = set_log (log s') (set_queued_for_eval (queued_for_eval s') s) /\
    forall cs, run (EvalResults oid agents :: cs) s = run cs s'.
Proof.
  eexists. split; [reflexivity|].
  split; [reflexivity|].
  split.
  - eexists. split; [reflexivity|]. split; reflexivity.
  - split; [by destruct s|]. intros cs. reflexivity.
Qed.

(** C8 as worded fails: an over-report that takes the counter from 0 to
    -1 adds a single debug line to the log, and no warning. *)
Lemma on_eval_results_negative_without_warning :
  exists s',
    on_eval_results 7 [demo_policy 0] bootstrap = Ok (tt, s') /\
    queued_for_eval s' = (-1)%Z /\
    log s' = log bootstrap ++ [(Debug, Received_processed_agents 1 7 (-1))] /\
    Forall (fun e => fst e <> Warn) (log s').
Proof.
  eexists. split; [reflexivity|]. split; [reflexivity|].
  split; [reflexivity|]. repeat constructor. discriminate.
Qed.

(** ** The in-flight counter over a sequence of calls *)

Lemma evolve_batch_counter init s o s' :
  evolve_batch init s = Ok (o, s') ->
  queued_for_eval s' = (queued_for_eval s + submitted_keys o)%Z.
Proof.
  intros H. apply evolve_batch_inv in H as [[-> [_ ->]]|(r & -> & Hsub)].
  - simpl. lia.
  - apply (sub_queued _ _ _ _ Hsub).
Qed.

Lemma run_counter cs s os s' :
  run cs s = Ok (os, s') ->
  queued_for_eval s' =
    (queued_for_eval s + total_submitted os - total_reported cs)%Z.
Proof.
  revert s os. induction cs as [|c cs IH]; intros s os H.
  - injection H as <- <-. simpl. lia.
  - destruct c as [init|oid agents|keys]; simpl in H.
    + apply bind_Ok in H as (o & s1 & Ho & H).
      apply bind_Ok in H as (os' & s2 & Hos & H).
      injection H as <- <-.
      apply evolve_batch_counter in Ho. apply IH in Hos.
      simpl. lia.
    + apply bind_Ok in H as ([] & s1 & Ho & H).
      injection Ho as <-. apply IH in H. simpl in *. lia.
    + apply bind_Ok in H as ([] & s1 & Ho & H).
      injection Ho as <-. apply IH in H. simpl in *. lia.
Qed.

(** C7.  Over any interleaving of rounds, result reports and releases,
    the counter ends at its initial value plus the replicated keys
    submitted minus the agents reported: it returns exactly to its
    initial value when the two totals agree, ends below it when more
    agents were reported than keys submitted, and is then negative if it
    started at zero. *)
Theorem counter_balance cs s os s' :
  run cs s = Ok (os, s') ->
  (total_submitted os = total_reported cs ->
   queued_for_eval s' = queued_for_eval s) /\
  ((total_submitted os < total_reported cs)%Z ->
   (queued_for_eval s' < queued_for_eval s)%Z /\
   (queued_for_eval s = 0%Z -> (queued_for_eval s' < 0)%Z)).
Proof.
  intros H. apply run_counter in H. split; intros; [lia|]. split; lia.
Qed.

Lemma counter_balance_witness :
  let os := match run balanced_calls bootstrap with
            | Ok (os, _) => os
            | Raise _ => []
            end in
  let s' := state_of bootstrap (run balanced_calls bootstrap) in
  (total_submitted os = 32%Z /\ total_reported balanced_calls = 32%Z) /\
  queued_for_eval s' = queued_for_eval bootstrap.
Proof.
  intros os s'.
  assert (Hrun : run balanced_calls bootstrap = Ok (os, s'))
    by (vm_compute; reflexivity).
  assert (Hs : total_submitted os = 32%Z) by (vm_compute; reflexivity).
  assert (Hr : total_reported balanced_calls = 32%Z) by (vm_compute; reflexivity).
  split; [exact (conj Hs Hr)|].
  apply (proj1 (counter_balance balanced_calls bootstrap os s' Hrun)).
  exact (eq_trans Hs (eq_sym Hr)).
Defined.

(** ** The tensor filter of the two batch loops *)

(** The guard of both loops holds for every name. *)
Lemma tensor_selected_always name : tensor_selected name = true.
Proof. reflexivity. Qed.

(** C3 fails on the code: a tensor whose name contains neither "weight"
    nor "bias" is handed to the operator by both loops and comes back
    changed. *)
Theorem unrecognized_tensor_is_altered :
  let name := "_action_log_std"%string in
  let s := bare_operator (clamped_hyperparams PyFalse PyFalse (1 # 2))
                         (constant_gen 1 (1 # 4)) in
  str_in "weight" name = false /\ str_in "bias" name = false /\
  (exists s', batch_mutation [(name, Tensor [1] [0%Q])] "gaussian_mutation" s
              = Ok ([(name, Tensor [1] [1%Q])], s')) /\
  (exists s', batch_crossover [(name, Tensor [1] [0%Q])]
                [(name, Tensor [1] [4%Q])] "iso_dd" s
              = Ok ([(name, Tensor [1] [5%Q])], s')).
Proof.
  intros name s. split; [reflexivity|]. split; [reflexivity|].
  split; eexists; vm_compute; reflexivity.
Qed.

(** ** Construction *)

(** A name outside the recognised sets disables its stage with a
    warning; this part of C9 holds. *)
Lemma init_unrecognized_disables inherited c actors elites cache queue free
    oid kw g :
  Cfg.crossover_op c ∉ ["sbx"; "iso_dd"]%string ->
  Cfg.mutation_op c ∉ ["polynomial_mutation"; "gaussian_mutation";
                       "uniform_mutation"]%string ->
  exists s,
    __init__ inherited c actors elites cache queue free oid kw g [] = Ok s /\
    crossover_op s = None /\ mutation_op s = None /\
    log s = [(Warn, Not_using_crossover); (Warn, Not_using_mutation)].
Proof.
  intros Hc Hm. unfold __init__.
  rewrite (bool_decide_false _ Hc), (bool_decide_false _ Hm).
  eexists. split; [reflexivity|]. auto.
Qed.

(** C9 fails on the code: "sbx" is in the recognised list, but the class
    defines no method of that name, so unless the event loop base class
    happens to provide one, [getattr] raises and construction fails. *)
Theorem init_sbx_raises inherited c actors elites cache queue free oid kw g l :
  Cfg.crossover_op c = "sbx"%string ->
  "sbx"%string ∉ inherited ->
  __init__ inherited c actors elites cache queue free oid kw g l
  = Raise AttributeError.
Proof.
  intros Hc Hn. unfold __init__, getattr. rewrite Hc.
  rewrite bool_decide_true by (apply list_elem_of_In; simpl; auto).
  rewrite bool_decide_false; [reflexivity|].
  rewrite elem_of_app. intros [Hin|Hin]; [|done].
  apply list_elem_of_In in Hin. simpl in Hin.
  repeat destruct Hin as [Hin|Hin]; try discriminate. done.
Qed.

Lemma init_sbx_raises_witness :
  __init__ ["connect"; "detach"; "emit"]%string (small_cfg "sbx" "none")
    [] ∅ [] [] ∅ 1 default_hyperparams (constant_gen 0 0) []
  = Raise AttributeError.
Proof.
  apply init_sbx_raises; [reflexivity|].
  rewrite list_elem_of_In. simpl. intuition discriminate.
Defined.

(** The same happens for two of the three recognised mutation names. *)
Lemma init_missing_mutation_raises inherited c actors elites cache queue free
    oid kw g l :
  Cfg.crossover_op c = "iso_dd"%string ->
  Cfg.mutation_op c = "polynomial_mutation"%string \/
  Cfg.mutation_op c = "uniform_mutation"%string ->
  "polynomial_mutation"%string ∉ inherited ->
  "uniform_mutation"%string ∉ inherited ->
  __init__ inherited c actors elites cache queue free oid kw g l
  = Raise AttributeError.
Proof.
  intros Hc Hm Hp Hu. unfold __init__, getattr. rewrite Hc.
  rewrite bool_decide_true by (apply list_elem_of_In; simpl; auto).
  rewrite bool_decide_true by (apply elem_of_app; left;
                               apply list_elem_of_In; simpl; auto 20).
  destruct Hm as [-> | ->].
  - rewrite bool_decide_true by (apply list_elem_of_In; simpl; auto).
    rewrite bool_decide_false; [reflexivity|].
    rewrite elem_of_app. intros [Hin|Hin]; [|done].
    apply list_elem_of_In in Hin. simpl in Hin.
    repeat destruct Hin as [Hin|Hin]; try discriminate. done.
  - rewrite bool_decide_true by (apply list_elem_of_In; simpl; auto).
    rewrite bool_decide_false; [reflexivity|].
    rewrite elem_of_app. intros [Hin|Hin]; [|done].
    apply list_elem_of_In in Hin. simpl in Hin.
    repeat destruct Hin as [Hin|Hin]; try discriminate. done.
Qed.

(** ** Writing the children into the evaluation cache *)

Lemma sd_get_Some_name name sd t :
  sd_get name sd = Some t -> name ∈ map fst sd.
Proof.
  induction sd as [|[n t0] sd IH]; simpl; [discriminate|].
  destruct (String.eqb_spec n name) as [->|Hne].
  - intros _. left.
  - intros H. right. by apply IH.
Qed.

Lemma mapR_lookup {A B} (f : A -> result B) l l' i a :
  mapR f l = Ok l' -> l !! i = Some a ->
  exists b, f a = Ok b /\ l' !! i = Some b.
Proof.
  revert l' i. induction l as [|a0 l IH]; intros l' i; simpl; [done|].
  destruct (f a0) as [b0|] eqn:E0; [|discriminate].
  destruct (mapR f l) as [bs|]; [|discriminate].
  intros [= <-] Hi. destruct i as [|i]; simpl in *.
  - injection Hi as <-. eauto.
  - by apply IH.
Qed.

Lemma load_state_dict_params own offered loaded :
  load_state_dict own offered = Ok loaded -> same_params loaded offered.
Proof.
  unfold load_state_dict.
  destruct (forallb _ offered) eqn:Hall; [|discriminate].
  intros Hmap name.
  assert (Hin : forall own' loaded',
             mapR (fun nt => match sd_get (fst nt) offered with
                             | Some t' =>
                                 if bool_decide (shape t' = shape (snd nt))
                                 then Ok (fst nt, t') else Raise RuntimeError
                             | None => Raise RuntimeError
                             end) own' = Ok loaded' ->
             sd_get name loaded' =
               if bool_decide (name ∈ map fst own')
               then sd_get name offered else None).
  { induction own' as [|[n t] own' IH]; intros loaded'; simpl.
    - by intros [= <-].
    - destruct (sd_get n offered) as [t'|] eqn:En; [|discriminate].
      destruct (bool_decide (shape t' = shape t)); [|discriminate].
      destruct (mapR _ own') as [rest|]; [|discriminate].
      intros [= <-]. simpl.
      destruct (String.eqb_spec n name) as [->|Hne].
      + rewrite bool_decide_true by left. by rewrite En.
      + rewrite (IH rest eq_refl).
        destruct (bool_decide (name ∈ map fst own')) eqn:Eb.
        * apply bool_decide_eq_true in Eb.
          rewrite bool_decide_true by (by right). done.
        * apply bool_decide_eq_false in Eb.
          rewrite bool_decide_false; [done|].
          intros Hc. apply elem_of_cons in Hc as [Hc|Hc]; congruence. }
  rewrite (Hin own loaded Hmap).
  destruct (bool_decide (name ∈ map fst own)) eqn:Eb; [done|].
  apply bool_decide_eq_false in Eb.
  destruct (sd_get name offered) as [t|] eqn:Eg; [|done].
  exfalso. apply Eb.
  assert (Hname : name ∈ map fst offered) by (eapply sd_get_Some_name; eauto).
  apply list_elem_of_In, in_map_iff in Hname as ([n t0] & Hn & Hnt).
  simpl in Hn. subst n.
  rewrite forallb_forall in Hall. specialize (Hall _ Hnt).
  by apply bool_decide_eq_true in Hall.
Qed.

Lemma load_row_spec p_cache pz row :
  load_row p_cache pz = Ok row ->
  length row = length p_cache /\
  forall j child, pz !! j = Some child -> j < length p_cache ->
                  exists c, row !! j = Some c /\ same_params c child.
Proof.
  revert pz row. induction p_cache as [|c0 p_cache IH]; intros pz row; simpl.
  - intros [= <-]. split; [done|]. intros j child _ Hj. simpl in Hj. lia.
  - destruct pz as [|z0 pz].
    + intros [= <-]. split; [done|]. intros j child Hj. done.
    + destruct (load_state_dict c0 z0) as [loaded|] eqn:El; [|discriminate].
      destruct (load_row p_cache pz) as [rest|] eqn:Er; [|discriminate].
      intros [= <-]. destruct (IH _ _ Er) as [Hlen Hrest].
      split; [simpl; by rewrite Hlen|].
      intros j child Hj Hlt. destruct j as [|j]; simpl in *.
      * injection Hj as <-. exists loaded. split; [done|].
        by eapply load_state_dict_params.
      * apply Hrest; [done|lia].
Qed.

Lemma write_cache_length cache keys cached rows cache' :
  write_cache cache keys cached rows = Ok cache' -> length cache' = length cache.
Proof.
  revert cache cached rows.
  induction keys as [|k keys IH]; intros cache cached rows; simpl.
  - by intros [= <-].
  - destruct cached as [|p_cache cached]; [by intros [= <-]|].
    destruct rows as [|pz rows]; [by intros [= <-]|].
    destruct (load_row p_cache pz); [|discriminate].
    intros H. apply IH in H. by rewrite length_insert in H.
Qed.

Lemma write_cache_other cache keys cached rows cache' k :
  write_cache cache keys cached rows = Ok cache' ->
  k ∉ keys -> cache' !! k = cache !! k.
Proof.
  revert cache cached rows.
  induction keys as [|k0 keys IH]; intros cache cached rows; simpl.
  - by intros [= <-].
  - destruct cached as [|p_cache cached]; [by intros [= <-]|].
    destruct rows as [|pz rows]; [by intros [= <-]|].
    destruct (load_row p_cache pz); [|discriminate].
    intros H Hk. apply not_elem_of_cons in Hk as [Hne Hk].
    rewrite (IH _ _ _ H Hk). by apply list_lookup_insert_ne.
Qed.

Lemma write_cache_at cache keys cached rows cache' i k :
  NoDup keys -> length cached = length keys -> length rows = length keys ->
  write_cache cache keys cached rows = Ok cache' ->
  keys !! i = Some k -> k < length cache ->
  exists p_cache pz row,
    cached !! i = Some p_cache /\ rows !! i = Some pz /\
    load_row p_cache pz = Ok row /\ cache' !! k = Some row.
Proof.
  revert cache cached rows i.
  induction keys as [|k0 keys IH]; intros cache cached rows i Hnd Hc Hr;
    simpl; [done|].
  destruct cached as [|p_cache cached]; [done|].
  destruct rows as [|pz rows]; [done|].
  apply NoDup_cons in Hnd as [Hk0 Hnd].
  destruct (load_row p_cache pz) as [row|] eqn:El; [|discriminate].
  intros H Hi Hlt. destruct i as [|i]; simpl in *.
  - injection Hi as ->. exists p_cache, pz, row.
    split; [done|]. split; [done|]. split; [done|].
    rewrite (write_cache_other _ _ _ _ _ _ H Hk0).
    by apply list_lookup_insert_eq.
  - apply (IH (<[k0:=row]> cache)); auto. by rewrite length_insert.
Qed.

(** ** The submitting round *)


Lemma submitted_drawn_x_free init s r s' :
  submitted init s r s' ->
  NoDup (drawn_x r) /\ forall k, k ∈ drawn_x r -> k ∈ free_policy_keys s.
Proof.
  intros Hsub. pose proof (sub_parents _ _ _ _ Hsub) as Hp.
  unfold parents_of in Hp.
  assert (Hd : drawn_from (free_keys_of init s) (batch_size_of init s) (drawn_x r)
               \/ drawn_x r = []).
  { destruct (mutation_op s), (crossover_op s);
      [left|left|left|right]; tauto. }
  destruct Hd as [(_ & _ & Hnd & Hin)| ->].
  - split; [exact Hnd|]. intros k Hk. eapply free_keys_of_free, Hin, Hk.
  - split; [constructor|]. intros k Hk. by apply elem_of_nil in Hk.
Qed.

Lemma submitted_actor_x_ids init s r s' :
  submitted init s r s' ->
  actor_x_ids r =
    drawn_x r ≫= replicate (Z.to_nat (Cfg.mutations_per_policy (cfg s))).
Proof.
  intros Hsub. pose proof (sub_parents _ _ _ _ Hsub) as Hp.
  unfold parents_of in Hp.
  destruct (mutation_op s), (crossover_op s).
  - tauto.
  - tauto.
  - tauto.
  - destruct Hp as (-> & _ & -> & _). reflexivity.
Qed.

Lemma submitted_unique_perm init s r s' :
  submitted init s r s' -> unique_actor_x_ids r ≡ₚ drawn_x r.
Proof.
  intros Hsub. pose proof (submitted_mpp_pos _ _ _ _ Hsub) as Hm.
  destruct (sub_unique _ _ _ _ Hsub) as [Hnd Hset].
  rewrite (submitted_actor_x_ids _ _ _ _ Hsub) in Hset.
  rewrite bind_replicate_set in Hset by lia.
  apply NoDup_Permutation;
    [exact Hnd | apply (submitted_drawn_x_free _ _ _ _ Hsub) |].
  intros k. by rewrite <- !(elem_of_list_to_set (C:=gset nat)), Hset.
Qed.

Lemma submitted_rows_length init s r s' :
  submitted init s r s' ->
  length (actors_z r) = length (unique_actor_x_ids r).
Proof.
  intros Hsub. pose proof (submitted_mpp_pos _ _ _ _ Hsub) as Hm.
  destruct (sub_cache _ _ _ _ Hsub) as (cached & flat & _ & Hflat & Hr & _).
  apply np_reshape_Ok in Hr as (_ & Hrows & _).
  rewrite (submitted_unique_perm _ _ _ _ Hsub).
  rewrite Hflat, (submitted_actor_x_ids _ _ _ _ Hsub),
    bind_replicate_length in Hrows.
  nia.
Qed.







(** * Further properties of the variation operator *)

(** ** What no handler writes *)

Lemma same_config_refl s : same_config s s.
Proof. unfold same_config. tauto. Qed.

Lemma same_config_trans s1 s2 s3 :
  same_config s1 s2 -> same_config s2 s3 -> same_config s1 s3.
Proof. unfold same_config. intuition congruence. Qed.

Lemma keeps_config_of_object {A} (m : M A) : keeps_object m -> keeps_config m.
Proof.
  intros Hm s a s' H. apply Hm in H. rewrite H.
  unfold same_config. simpl. tauto.
Qed.

Lemma keeps_config_ret {A} (a : A) : keeps_config (ret a).
Proof. apply keeps_config_of_object, keeps_ret. Qed.

Lemma keeps_config_get : keeps_config get.
Proof. apply keeps_config_of_object, keeps_get. Qed.

Lemma keeps_config_lift {A} (r : result A) : keeps_config (lift r).
Proof. apply keeps_config_of_object, keeps_lift. Qed.

Lemma keeps_config_bind {A B} (m : M A) (k : A -> M B) :
  keeps_config m -> (forall a, keeps_config (k a)) -> keeps_config (bind m k).
Proof.
  intros Hm Hk s b s2 H. apply bind_Ok in H as (a & s1 & H1 & H2).
  eapply same_config_trans; [eapply Hm, H1 | eapply Hk, H2].
Qed.

Lemma keeps_config_modify f :
  (forall s, same_config s (f s)) -> keeps_config (modify f).
Proof. intros Hf s a s' [= <- <-]. apply Hf. Qed.

Ltac config_step :=
  first
    [ apply keeps_config_ret | apply keeps_config_get | apply keeps_config_lift
    | apply keeps_config_of_object;
      first [ apply keeps_log_debug | apply keeps_draw_parents
            | apply keeps_evo | apply keeps_list_of_set
            | apply keeps_raise ]
    | apply keeps_config_modify; intros ?; unfold same_config; simpl; tauto
    | apply keeps_config_bind; [|intros ?]
    | match goal with
      | |- keeps_config (if ?b then _ else _) => destruct b
      | |- keeps_config (match ?x with _ => _ end) => destruct x
      | |- keeps_config (let '(_, _) := ?x in _) => destruct x
      end ].

Lemma keeps_config_evolve_batch init : keeps_config (evolve_batch init).
Proof.
  unfold evolve_batch, log_warn, emit. repeat config_step.
Qed.

Lemma keeps_config_on_eval_results oid agents :
  keeps_config (on_eval_results oid agents).
Proof. unfold on_eval_results. repeat config_step. Qed.

Lemma keeps_config_on_release keys : keeps_config (on_release keys).
Proof. unfold on_release. repeat config_step. Qed.

(** X1.  Whatever calls are dispatched, in whatever order, none of them
    writes the configuration, the policy pool, the archive, the identity
    of the object, the two operators, the hyperparameters or
    [init_mode]: they are after the run what they were before. *)
Theorem handlers_never_write_configuration cs s os s' :
  run cs s = Ok (os, s') ->
  cfg s' = cfg s /\ all_actors s' = all_actors s /\
  elites_map s' = elites_map s /\ object_id s' = object_id s /\
  crossover_op s' = crossover_op s /\ mutation_op s' = mutation_op s /\
  hyper s' = hyper s /\ init_mode s' = init_mode s.
Proof.
  change (run cs s = Ok (os, s') -> same_config s s').
  revert s os. induction cs as [|c cs IH]; intros s os H.
  - injection H as <- <-. apply same_config_refl.
  - destruct c as [init|oid agents|keys]; simpl in H.
    + apply bind_Ok in H as (o & s1 & Ho & H).
      apply bind_Ok in H as (os' & s2 & Hos & H).
      injection H as <- <-.
      eapply same_config_trans;
        [eapply keeps_config_evolve_batch, Ho | eapply IH, Hos].
    + apply bind_Ok in H as ([] & s1 & Ho & H).
      eapply same_config_trans;
        [eapply keeps_config_on_eval_results, Ho | eapply IH, H].
    + apply bind_Ok in H as ([] & s1 & Ho & H).
      eapply same_config_trans;
        [eapply keeps_config_on_release, Ho | eapply IH, H].
Qed.

Lemma handlers_never_write_configuration_witness :
  let os := match run balanced_calls bootstrap with
            | Ok (os, _) => os
            | Raise _ => []
            end in
  let s' := state_of bootstrap (run balanced_calls bootstrap) in
  run balanced_calls bootstrap = Ok (os, s') /\
  init_mode s' = true /\ object_id s' = 1.
Proof.
  intros os s'.
  assert (Hrun : run balanced_calls bootstrap = Ok (os, s'))
    by (vm_compute; reflexivity).
  destruct (handlers_never_write_configuration _ _ _ _ Hrun)
    as (_ & _ & _ & Hid & _ & _ & _ & Hmode).
  split; [exact Hrun|]. split; [exact Hmode | exact Hid].
Defined.

(** ** Notifications and queue entries over a run *)

Lemma rounds_of_cons o os : rounds_of (o :: os) = rounds_of [o] ++ rounds_of os.
Proof. unfold rounds_of. rewrite !bind_cons. simpl. by rewrite app_nil_r. Qed.

Lemma evolve_batch_emits init s o s1 :
  evolve_batch init s = Ok (o, s1) ->
  signals s1 = signals s ++ map (fun _ => to_evaluate (object_id s) (init_mode s))
                                (rounds_of [o]) /\
  eval_in_queue s1 = eval_in_queue s ++ map unique_actor_x_ids (rounds_of [o]) /\
  Forall (fun r => NoDup (unique_actor_x_ids r)) (rounds_of [o]).
Proof.
  intros H. apply evolve_batch_inv in H as [[-> [_ ->]]|(r & -> & Hsub)].
  - simpl. rewrite !app_nil_r. by destruct s.
  - simpl. split; [apply (sub_signals _ _ _ _ Hsub)|].
    split; [apply (sub_queue _ _ _ _ Hsub)|].
    constructor; [|constructor].
    apply (sub_unique _ _ _ _ Hsub).
Qed.

(** X2.  Over any run of calls the object emits exactly one
    notification and enqueues exactly one key list per submitting round,
    in the order of the rounds; skipped rounds, result reports and
    releases emit and enqueue nothing.  Every notification carries the
    identity of the object and the value [init_mode] had before the run,
    and every enqueued list is free of duplicates. *)
Theorem one_notification_per_submitting_round cs s os s' :
  run cs s = Ok (os, s') ->
  signals s' = signals s ++ map (fun _ => to_evaluate (object_id s) (init_mode s))
                                (rounds_of os) /\
  eval_in_queue s' = eval_in_queue s ++ map unique_actor_x_ids (rounds_of os) /\
  Forall (fun r => NoDup (unique_actor_x_ids r)) (rounds_of os).
Proof.
  revert s os. induction cs as [|c cs IH]; intros s os H.
  - injection H as <- <-. simpl. rewrite !app_nil_r. by split.
  - destruct c as [init|oid agents|keys]; simpl in H.
    + apply bind_Ok in H as (o & s1 & Ho & H).
      apply bind_Ok in H as (os' & s2 & Hos & H).
      injection H as <- <-.
      pose proof (keeps_config_evolve_batch init s o s1 Ho)
        as (_ & _ & _ & Hid & _ & _ & _ & Hmode).
      apply evolve_batch_emits in Ho as (Hs & Hq & Hn).
      apply IH in Hos as (Hs' & Hq' & Hn').
      rewrite rounds_of_cons, !map_app.
      rewrite Hs', Hq', Hs, Hq, Hid, Hmode, <- !app_assoc.
      split; [done|]. split; [done|]. by apply Forall_app.
    + apply bind_Ok in H as ([] & s1 & Ho & H).
      injection Ho as <-. apply IH in H as (Hs' & Hq' & Hn'). by split.
    + apply bind_Ok in H as ([] & s1 & Ho & H).
      injection Ho as <-. apply IH in H as (Hs' & Hq' & Hn'). by split.
Qed.

Lemma one_notification_per_submitting_round_witness :
  let os := match run balanced_calls bootstrap with
            | Ok (os, _) => os
            | Raise _ => []
            end in
  let s' := state_of bootstrap (run balanced_calls bootstrap) in
  run balanced_calls bootstrap = Ok (os, s') /\
  length (rounds_of os) = 2 /\
  signals s' = [to_evaluate 1 true; to_evaluate 1 true].
Proof.
  intros os s'.
  assert (Hrun : run balanced_calls bootstrap = Ok (os, s'))
    by (vm_compute; reflexivity).
  assert (Hlen : length (rounds_of os) = 2) by (vm_compute; reflexivity).
  destruct (one_notification_per_submitting_round _ _ _ _ Hrun) as (Hs & _ & _).
  split; [exact Hrun|]. split; [exact Hlen|].
  rewrite Hs. vm_compute. reflexivity.
Defined.

(** ** Exclusive claims *)

Lemma claimed_by_cons o os : claimed_by (o :: os) = claimed_by [o] ++ claimed_by os.
Proof. unfold claimed_by. by rewrite rounds_of_cons, bind_app. Qed.

Lemma evolve_batch_claims init s o s1 :
  evolve_batch init s = Ok (o, s1) ->
  NoDup (claimed_by [o]) /\
  (forall k, k ∈ claimed_by [o] -> k ∈ free_policy_keys s) /\
  free_policy_keys s1 = free_policy_keys s ∖ list_to_set (claimed_by [o]).
Proof.
  intros H. apply evolve_batch_inv in H as [[-> [_ ->]]|(r & -> & Hsub)].
  - unfold claimed_by. simpl. split; [constructor|].
    split; [intros k Hk; by apply elem_of_nil in Hk|].
    destruct s. simpl. by rewrite difference_empty_L.
  - unfold claimed_by. simpl. rewrite app_nil_r.
    destruct (submitted_drawn_x_free _ _ _ _ Hsub) as [Hnd Hin].
    split; [exact Hnd|]. split; [exact Hin|].
    apply (submitted_claims_drawn_x _ _ _ _ Hsub).
Qed.

(** X3.  As long as no key is released, no key is claimed twice: over
    any run of rounds and result reports the keys claimed by the
    submitting rounds are pairwise distinct, each was free before the
    run, and the free keys after the run are the free keys before it
    minus the claimed ones.  Reporting results does not free a key. *)
Theorem no_key_claimed_twice cs s os s' :
  run cs s = Ok (os, s') ->
  Forall (fun c => is_release c = false) cs ->
  NoDup (claimed_by os) /\
  (forall k, k ∈ claimed_by os -> k ∈ free_policy_keys s) /\
  free_policy_keys s' = free_policy_keys s ∖ list_to_set (claimed_by os).
Proof.
  intros H Hnr. revert s os H.
  induction cs as [|c cs IH]; intros s os H.
  - injection H as <- <-. unfold claimed_by. simpl.
    split; [constructor|]. split; [intros k Hk; by apply elem_of_nil in Hk|].
    by rewrite difference_empty_L.
  - apply Forall_cons in Hnr as [Hc Hnr]. specialize (IH Hnr).
    destruct c as [init|oid agents|keys]; simpl in H; [| |discriminate].
    + apply bind_Ok in H as (o & s1 & Ho & H).
      apply bind_Ok in H as (os' & s2 & Hos & H).
      injection H as <- <-.
      apply evolve_batch_claims in Ho as (Hnd & Hin & Hfree).
      apply IH in Hos as (Hnd' & Hin' & Hfree').
      rewrite claimed_by_cons.
      assert (Hdisj : forall k, k ∈ claimed_by [o] -> k ∉ claimed_by os').
      { intros k Hk Hk'. apply Hin' in Hk'. rewrite Hfree in Hk'.
        apply elem_of_difference in Hk' as [_ Hk'].
        apply Hk'. by apply elem_of_list_to_set. }
      split; [apply NoDup_app; auto|].
      split.
      * intros k Hk. apply elem_of_app in Hk as [Hk|Hk]; [by apply Hin|].
        apply Hin' in Hk. rewrite Hfree in Hk.
        by apply elem_of_difference in Hk as [Hk _].
      * rewrite Hfree', Hfree, list_to_set_app_L.
        apply set_eq. intros k.
        rewrite !elem_of_difference, elem_of_union. tauto.
    + apply bind_Ok in H as ([] & s1 & Ho & H).
      injection Ho as <-. apply IH in H. exact H.
Qed.

Lemma no_key_claimed_twice_witness :
  let os := match run two_rounds bootstrap with
            | Ok (os, _) => os
            | Raise _ => []
            end in
  let s' := state_of bootstrap (run two_rounds bootstrap) in
  run two_rounds bootstrap = Ok (os, s') /\
  length (claimed_by os) = 16 /\ NoDup (claimed_by os) /\
  size (free_policy_keys s') = 84.
Proof.
  intros os s'.
  assert (Hrun : run two_rounds bootstrap = Ok (os, s'))
    by (vm_compute; reflexivity).
  assert (Hnr : Forall (fun c => is_release c = false) two_rounds)
    by (repeat constructor).
  destruct (no_key_claimed_twice _ _ _ _ Hrun Hnr) as (Hnd & _ & _).
  split; [exact Hrun|]. split; [vm_compute; reflexivity|].
  split; [exact Hnd | vm_compute; reflexivity].
Defined.

(** ** Where parents come from *)

(** X4.  The parents of a submitting round, X and Y alike, are free
    keys; in a steady-state round each of them is moreover the key of an
    elite recorded in the archive. *)
Theorem parents_are_free_candidates init s r s' k :
  evolve_batch init s = Ok (Submitted r, s') ->
  k ∈ drawn_x r \/ k ∈ drawn_y r ->
  k ∈ free_policy_keys s /\
  (init = false ->
   exists niche meta, elites_map s !! niche = Some (k, meta)).
Proof.
  intros H Hk.
  apply evolve_batch_inv in H as [[? _]|(r' & [= <-] & Hsub)]; [discriminate|].
  pose proof (sub_parents _ _ _ _ Hsub) as Hp. unfold parents_of in Hp.
  assert (Hin : k ∈ free_keys_of init s).
  { destruct (mutation_op s), (crossover_op s).
    - destruct Hp as ((_ & _ & _ & Hx) & (_ & _ & _ & Hy) & _).
      destruct Hk; auto.
    - destruct Hp as ((_ & _ & _ & Hx) & Hy & _). rewrite Hy in Hk.
      destruct Hk as [Hk|Hk]; [auto|by apply elem_of_nil in Hk].
    - destruct Hp as ((_ & _ & _ & Hx) & (_ & _ & _ & Hy) & _).
      destruct Hk; auto.
    - destruct Hp as (Hx & Hy & _). rewrite Hx, Hy in Hk.
      destruct Hk as [Hk|Hk]; by apply elem_of_nil in Hk. }
  split; [by eapply free_keys_of_free|].
  intros ->. unfold free_keys_of, candidate_keys in Hin.
  apply elem_of_elements, elem_of_intersection in Hin as [_ Hin].
  apply elem_of_list_to_set, list_elem_of_In, in_map_iff in Hin
    as ([niche [k' meta]] & Hk' & Hin).
  simpl in Hk'. subst k'. exists niche, meta.
  apply elem_of_map_to_list, list_elem_of_In, Hin.
Qed.

Lemma parents_are_free_candidates_witness :
  let r := round_of (evolve_batch false seeded_operator) in
  let s' := state_of seeded_operator (evolve_batch false seeded_operator) in
  evolve_batch false seeded_operator = Ok (Submitted r, s') /\
  drawn_x r = [2; 1] /\
  exists niche meta, elites_map seeded_operator !! niche = Some (2, meta).
Proof.
  intros r s'.
  assert (Hrun : evolve_batch false seeded_operator = Ok (Submitted r, s'))
    by (vm_compute; reflexivity).
  assert (Hx : drawn_x r = [2; 1]) by (vm_compute; reflexivity).
  assert (Hk : 2 ∈ drawn_x r \/ 2 ∈ drawn_y r)
    by (left; rewrite Hx; left).
  split; [exact Hrun|]. split; [exact Hx|].
  exact (proj2 (parents_are_free_candidates false seeded_operator r s' 2 Hrun Hk)
           eq_refl).
Defined.

(** ** The evaluation cache is overwritten in place *)

(** X5.  [evolve_batch] overwrites the evaluation cache in place: the
    cache keeps its number of entries and every entry keeps its depth,
    and the entry of a key that the round did not claim is left exactly
    as it was. *)
Theorem evolve_batch_never_resizes_cache init s o s' :
  evolve_batch init s = Ok (o, s') ->
  length (eval_cache s') = length (eval_cache s) /\
  forall k old, eval_cache s !! k = Some old ->
    exists new, eval_cache s' !! k = Some new /\ length new = length old /\
                (k ∉ claimed_by [o] -> new = old).
Proof.
  intros H. apply evolve_batch_inv in H as [[-> [_ ->]]|(r & -> & Hsub)].
  - split; [by destruct s|]. intros k old Hk. exists old. by destruct s.
  - destruct (sub_cache _ _ _ _ Hsub) as (cached & flat & Hc & _ & _ & Hw).
    split; [eapply write_cache_length, Hw|].
    intros k old Hk.
    assert (Hund : NoDup (unique_actor_x_ids r)).
    { apply (sub_unique _ _ _ _ Hsub). }
    assert (Hcl : claimed_by [Submitted r] = drawn_x r).
    { unfold claimed_by. simpl. by rewrite app_nil_r. }
    destruct (decide (k ∈ unique_actor_x_ids r)) as [Hin|Hout].
    + apply list_elem_of_lookup in Hin as [i Hi].
      destruct (mapR_lookup _ _ _ _ _ Hc Hi) as (old' & Hold & Hci).
      rewrite Hk in Hold. injection Hold as <-.
      destruct (write_cache_at _ _ _ _ _ i k Hund (mapR_length _ _ _ Hc)
                  (submitted_rows_length _ _ _ _ Hsub) Hw Hi)
        as (p_cache & pz & new & Hci' & _ & Hload & Hnew).
      { eapply lookup_lt_Some, Hk. }
      rewrite Hci in Hci'. injection Hci' as <-.
      exists new. split; [exact Hnew|].
      split; [apply (load_row_spec _ _ _ Hload)|].
      intros Hno. exfalso. apply Hno. rewrite Hcl.
      rewrite <- (submitted_unique_perm _ _ _ _ Hsub).
      eapply list_elem_of_lookup_2, Hi.
    + exists old. rewrite (write_cache_other _ _ _ _ _ _ Hw Hout).
      by split.
Qed.

Lemma evolve_batch_never_resizes_cache_witness :
  let r := round_of (evolve_batch true bootstrap) in
  let s' := state_of bootstrap (evolve_batch true bootstrap) in
  evolve_batch true bootstrap = Ok (Submitted r, s') /\
  length (eval_cache s') = 100 /\
  eval_cache s' !! 0 = Some (replicate 2 (demo_policy 0)).
Proof.
  intros r s'.
  assert (Hrun : evolve_batch true bootstrap = Ok (Submitted r, s'))
    by (vm_compute; reflexivity).
  destruct (evolve_batch_never_resizes_cache _ _ _ _ Hrun) as [Hlen Hk].
  destruct (Hk 0 (replicate 2 (demo_policy 0)) eq_refl) as (new & Hn & _ & He).
  assert (Hout : 0 ∉ claimed_by [Submitted r]).
  { rewrite list_elem_of_In. vm_compute. intuition discriminate. }
  split; [exact Hrun|]. split; [exact Hlen|].
  rewrite Hn. f_equal. exact (He Hout).
Defined.

(** ** Backpressure *)

Lemma batch_size_of_cfg init s s' :
  cfg s' = cfg s -> batch_size_of init s' = batch_size_of init s.
Proof. intros H. unfold batch_size_of. by rewrite H. Qed.

Lemma round_cap_cfg s s' : cfg s' = cfg s -> round_cap s' = round_cap s.
Proof.
  intros H. unfold round_cap.
  by rewrite H, !(batch_size_of_cfg _ _ _ H).
Qed.

Lemma evolve_batch_adds_at_most init s o s' :
  evolve_batch init s = Ok (o, s') ->
  (0 <= submitted_keys o <= round_cap s)%Z.
Proof.
  intros H. unfold round_cap.
  apply evolve_batch_inv in H as [[-> _]|(r & -> & Hsub)];
    cbn [submitted_keys]; [nia|].
  pose proof (submitted_mpp_pos _ _ _ _ Hsub) as Hm.
  rewrite (submitted_actor_x_ids _ _ _ _ Hsub), bind_replicate_length.
  pose proof (sub_parents _ _ _ _ Hsub) as Hp. unfold parents_of in Hp.
  assert (Hlen : (Z.of_nat (length (drawn_x r))
                  <= Z.max 0 (batch_size_of init s))%Z).
  { destruct (mutation_op s), (crossover_op s).
    - destruct Hp as ((? & -> & _) & _). lia.
    - destruct Hp as ((? & -> & _) & _). lia.
    - destruct Hp as ((? & -> & _) & _). lia.
    - destruct Hp as (-> & _). simpl. lia. }
  assert (Hb : (Z.max 0 (batch_size_of init s)
                <= Z.max 0 (Z.max (batch_size_of true s)
                                  (batch_size_of false s)))%Z)
    by (destruct init; lia).
  rewrite Nat2Z.inj_mul, Z2Nat.id by lia.
  rewrite (Z.max_r 0 (Cfg.mutations_per_policy (cfg s))) by lia.
  split; [apply Z.mul_nonneg_nonneg; lia|].
  apply Z.mul_le_mono_nonneg_r; lia.
Qed.

Lemma maybe_mutate_new_batch_Ok s s' :
  maybe_mutate_new_batch s = Ok (tt, s') ->
  ((2 * Cfg.num_agents (cfg s) <= queued_for_eval s)%Z /\ s' = s) \/
  ((queued_for_eval s < 2 * Cfg.num_agents (cfg s))%Z /\
   exists o, evolve_batch (tick_mode s) s = Ok (o, s')).
Proof.
  unfold maybe_mutate_new_batch. intros H.
  apply bind_Ok in H as (self & s0 & Hget & H). injection Hget as <- <-.
  destruct (queued_for_eval s <? 2 * Cfg.num_agents (cfg s))%Z eqn:E.
  - right. apply Z.ltb_lt in E. split; [exact E|].
    apply bind_Ok in H as (o & s1 & Ho & H). injection H as <-.
    exists o. exact Ho.
  - left. apply Z.ltb_ge in E. injection H as <-. by split.
Qed.

(** X6.  The timer throttles itself on the in-flight counter: however
    timer firings, result reports and releases interleave, the counter
    never rises above the larger of its initial value and
    [2 * num_agents - 1] plus the size of one full round. *)
Theorem counter_stays_under_watermark es s s' :
  dispatch es s = Ok (tt, s') ->
  (queued_for_eval s'
   <= Z.max (queued_for_eval s)
            (2 * Cfg.num_agents (cfg s) - 1 + round_cap s))%Z.
Proof.
  revert s. induction es as [|e es IH]; intros s H.
  - injection H as <-. lia.
  - destruct e as [|oid agents|keys]; simpl in H.
    + apply bind_Ok in H as ([] & s1 & Ht & H). apply IH in H.
      apply maybe_mutate_new_batch_Ok in Ht as [[Hge ->]|[Hlt [o Ho]]];
        [exact H|].
      pose proof (keeps_config_evolve_batch _ _ _ _ Ho) as (Hcfg & _).
      pose proof (evolve_batch_adds_at_most _ _ _ _ Ho) as Hadd.
      apply evolve_batch_counter in Ho.
      rewrite (round_cap_cfg _ _ Hcfg), Hcfg in H. lia.
    + apply bind_Ok in H as ([] & s1 & Ho & H).
      injection Ho as <-. apply IH in H.
      unfold round_cap, batch_size_of in *. simpl in H. lia.
    + apply bind_Ok in H as ([] & s1 & Ho & H).
      injection Ho as <-. apply IH in H.
      unfold round_cap, batch_size_of in *. simpl in H. lia.
Qed.

Lemma counter_stays_under_watermark_witness :
  let s' := state_of bootstrap (dispatch busy_day bootstrap) in
  dispatch busy_day bootstrap = Ok (tt, s') /\
  (queued_for_eval s' <= 2 * 4 - 1 + 8 * 2)%Z.
Proof.
  intros s'.
  assert (Hrun : dispatch busy_day bootstrap = Ok (tt, s'))
    by (vm_compute; reflexivity).
  split; [exact Hrun|].
  exact (counter_stays_under_watermark busy_day bootstrap s' Hrun).
Defined.

(** ** Claim and release *)

(** X7.  Releasing the key list a submitting round put on the queue
    undoes the claim of that round: the free keys are again what they
    were before the round.  Releasing keys that are already free changes
    nothing. *)
Theorem release_undoes_claim init s r s1 :
  evolve_batch init s = Ok (Submitted r, s1) ->
  exists s2,
    on_release (unique_actor_x_ids r) s1 = Ok (tt, s2) /\
    free_policy_keys s2 = free_policy_keys s /\
    (forall s3, on_release (unique_actor_x_ids r) s2 = Ok (tt, s3) ->
                free_policy_keys s3 = free_policy_keys s2).
Proof.
  intros H.
  apply evolve_batch_inv in H as [[? _]|(r' & [= <-] & Hsub)]; [discriminate|].
  eexists. split; [reflexivity|]. simpl.
  pose proof (submitted_claims_drawn_x _ _ _ _ Hsub) as Hfree.
  pose proof (submitted_unique_perm _ _ _ _ Hsub) as Hperm.
  destruct (submitted_drawn_x_free _ _ _ _ Hsub) as [_ Hin].
  assert (Hset : (list_to_set (unique_actor_x_ids r) : gset nat)
                 = list_to_set (drawn_x r)).
  { apply set_eq. intros k. rewrite !elem_of_list_to_set. by rewrite Hperm. }
  assert (Hback : free_policy_keys s1 ∪ list_to_set (unique_actor_x_ids r)
                  = free_policy_keys s).
  { rewrite Hset, Hfree. apply set_eq. intros k.
    rewrite elem_of_union, elem_of_difference, elem_of_list_to_set.
    split.
    - intros [[Hk _]|Hk]; [exact Hk | by apply Hin].
    - intros Hk. destruct (decide (k ∈ drawn_x r)); [by right|by left]. }
  split; [exact Hback|].
  intros s3 [= <-]. simpl. rewrite Hback.
  apply set_eq. intros k. rewrite elem_of_union, Hset, elem_of_list_to_set.
  split; [intros [Hk|Hk]; [exact Hk | by apply Hin] | by left].
Qed.

Lemma release_undoes_claim_witness :
  let r := round_of (evolve_batch true bootstrap) in
  let s1 := state_of bootstrap (evolve_batch true bootstrap) in
  evolve_batch true bootstrap = Ok (Submitted r, s1) /\
  size (free_policy_keys s1) = 92 /\
  exists s2, on_release (unique_actor_x_ids r) s1 = Ok (tt, s2) /\
             free_policy_keys s2 = free_policy_keys bootstrap.
Proof.
  intros r s1.
  assert (Hrun : evolve_batch true bootstrap = Ok (Submitted r, s1))
    by (vm_compute; reflexivity).
  destruct (release_undoes_claim true bootstrap r s1 Hrun) as (s2 & E & Hf & _).
  split; [exact Hrun|]. split; [vm_compute; reflexivity|].
  exists s2. split; [exact E | exact Hf].
Defined.

(** ** Sizes the starvation guard lets through *)

(** X8.  The starvation guard compares the number of free candidates
    with the batch size and so lets a negative batch size through; with
    an operator configured the round then fails in the first draw with
    [ValueError].  The same holds for a negative [mutations_per_policy]
    once the keys are drawn. *)
Theorem negative_sizes_raise init s :
  crossover_op s <> None \/ mutation_op s <> None ->
  (batch_size_of init s < 0)%Z \/
  ((batch_size_of init s <= Z.of_nat (length (free_keys_of init s)))%Z /\
   (Cfg.mutations_per_policy (cfg s) < 0)%Z) ->
  evolve_batch init s = Raise ValueError.
Proof.
  intros Hop Hneg.
  assert (Hguard : (Z.of_nat (length (free_keys_of init s))
                    <? batch_size_of init s)%Z = false).
  { apply Z.ltb_ge. lia. }
  assert (Hdraw : forall l,
             draw_parents (free_keys_of init s) (batch_size_of init s)
               (set_log l s) = Raise ValueError).
  { intros l. unfold draw_parents, bind, get. simpl.
    destruct Hneg as [Hb|[Hb Hm]].
    - assert (E : (batch_size_of init s <? 0)%Z = true) by (apply Z.ltb_lt; lia).
      unfold np_random_choice.
      destruct (mutation_op s), (crossover_op s); rewrite ?E; try reflexivity.
      destruct Hop; congruence.
    - unfold np_random_choice, np_repeat, lift. simpl.
      destruct (batch_size_of init s <? 0)%Z eqn:E1;
        [destruct (mutation_op s), (crossover_op s); try reflexivity;
         destruct Hop; congruence|].
      apply Z.ltb_ge in E1.
      assert (E2 : (length (free_keys_of init s)
                    <? Z.to_nat (batch_size_of init s)) = false)
        by (apply Nat.ltb_ge; lia).
      assert (E3 : (Cfg.mutations_per_policy (cfg s) <? 0)%Z = true)
        by (apply Z.ltb_lt; lia).
      destruct (mutation_op s), (crossover_op s);
        rewrite ?E2; simpl; rewrite ?E2; simpl; rewrite ?E3; try reflexivity.
      destruct Hop; congruence. }
  unfold evolve_batch, bind, get.
  destruct init; simpl;
    unfold free_keys_of, candidate_keys, batch_size_of in Hguard, Hdraw;
    simpl in Hguard, Hdraw; rewrite Hguard; simpl;
    unfold log_debug, modify; simpl; by rewrite Hdraw.
Qed.

Lemma negative_sizes_raise_witness :
  batch_size_of true negative_batch = (-1)%Z /\
  evolve_batch true negative_batch = Raise ValueError.
Proof.
  split; [reflexivity|].
  apply negative_sizes_raise.
  - left. discriminate.
  - left. reflexivity.
Defined.

(** ** [evo]: schema and the empty pipeline *)

Lemma mapR_Forall2 {A B} (f : A -> result B) (R : B -> A -> Prop) l l' :
  (forall a b, f a = Ok b -> R b a) -> mapR f l = Ok l' -> Forall2 R l' l.
Proof.
  intros Hf. revert l'. induction l as [|a l IH]; intros l'; simpl.
  - intros [= <-]. constructor.
  - destruct (f a) as [b|] eqn:E; [|discriminate].
    destruct (mapR f l) as [bs|]; [|discriminate].
    intros [= <-]. constructor; [by apply Hf | by apply IH].
Qed.

Lemma load_state_dict_schema own offered loaded :
  load_state_dict own offered = Ok loaded -> same_schema loaded own.
Proof.
  unfold load_state_dict, same_schema.
  destruct (forallb _ offered); [|discriminate].
  apply mapR_Forall2. intros [n t] [n' t']. simpl.
  destruct (sd_get n offered) as [t0|]; [|discriminate].
  destruct (bool_decide (shape t0 = shape t)) eqn:E; [|discriminate].
  apply bool_decide_eq_true in E. intros [= <- <-]. by split.
Qed.

Lemma sd_get_unique sd n t :
  unique_names sd -> (n, t) ∈ sd -> sd_get n sd = Some t.
Proof.
  unfold unique_names.
  induction sd as [|[n0 t0] sd IH]; intros Hnd Hin; simpl in *.
  - by apply elem_of_nil in Hin.
  - apply NoDup_cons in Hnd as [Hn0 Hnd].
    apply elem_of_cons in Hin as [[= -> ->]|Hin].
    + by rewrite String.eqb_refl.
    + destruct (String.eqb_spec n0 n) as [->|Hne]; [|by apply IH].
      exfalso. apply Hn0. apply list_elem_of_In, in_map_iff.
      exists (n, t). split; [done|]. by apply list_elem_of_In.
Qed.

Lemma mapR_id {A} (f : A -> result A) l :
  (forall a, a ∈ l -> f a = Ok a) -> mapR f l = Ok l.
Proof.
  induction l as [|a l IH]; intros Hf; simpl; [done|].
  rewrite (Hf a) by left. rewrite IH; [done|].
  intros b Hb. apply Hf. by right.
Qed.

Lemma load_state_dict_self sd :
  unique_names sd -> load_state_dict sd sd = Ok sd.
Proof.
  intros Hu. unfold load_state_dict.
  replace (forallb _ sd) with true.
  - apply mapR_id. intros [n t] Hin. simpl.
    rewrite (sd_get_unique _ _ _ Hu Hin).
    by rewrite bool_decide_true.
  - symmetry. apply forallb_forall. intros [n t] Hin.
    apply bool_decide_eq_true. apply list_elem_of_In, in_map_iff.
    by exists (n, t).
Qed.

(** X9.  Whatever the operators did, a child handed back by [evo] has
    the schema of parent X: the same tensor names in the same order,
    tensor by tensor of the same shape, for the same number of
    policies.  An operator that changes a shape makes [evo] fail
    instead. *)
Theorem evo_keeps_schema ax ay cop mop s z s' :
  evo ax ay cop mop s = Ok (z, s') ->
  same_schema (params z) (params ax) /\ num_mlps z = num_mlps ax.
Proof.
  unfold evo. intros H.
  apply bind_Ok in H as (sd & s1 & _ & H).
  apply bind_Ok in H as (loaded & s2 & Hl & H).
  apply lift_Ok in Hl as [Hl _].
  apply bind_Ok in H as ([] & s3 & _ & H).
  injection H as <- <-. simpl.
  split; [by eapply load_state_dict_schema | done].
Qed.

Lemma evo_keeps_schema_witness :
  let s := bare_operator (clamped_hyperparams PyFalse PyFalse (1 # 2))
                         (constant_gen 1 (1 # 4)) in
  let r := evo demo_batch demo_batch (Some "iso_dd"%string)
               (Some "gaussian_mutation"%string) s in
  let z := match r with
           | Ok (z, _) => z
           | Raise _ => demo_batch
           end in
  r = Ok (z, state_of s r) /\
  params z <> params demo_batch /\
  same_schema (params z) (params demo_batch) /\ num_mlps z = 2.
Proof.
  intros s r z.
  assert (Hr : evo demo_batch demo_batch (Some "iso_dd"%string)
                 (Some "gaussian_mutation"%string) s = Ok (z, state_of s r))
    by (vm_compute; reflexivity).
  split; [exact Hr|].
  split; [vm_compute; discriminate|].
  exact (evo_keeps_schema _ _ _ _ _ _ _ Hr).
Defined.

(** X10.  With both stages disabled [evo] is the identity: the child
    has exactly the parameters of parent X, no random sample is read,
    and the only trace is the debug line. *)
Theorem evo_without_operators_is_identity ax ay s :
  unique_names (params ax) ->
  evo ax ay None None s =
  Ok (ax, set_log (log s ++ [(Debug, Mutated_actors (num_mlps ax))]) s).
Proof.
  intros Hu. unfold evo, bind, ret, lift, log_debug, modify.
  rewrite (load_state_dict_self _ Hu). by destruct ax.
Qed.

Lemma evo_without_operators_is_identity_witness :
  exists s', evo demo_batch demo_batch None None bootstrap = Ok (demo_batch, s')
             /\ gen s' = gen bootstrap.
Proof.
  assert (Hu : unique_names (params demo_batch)).
  { unfold unique_names. apply NoDup_ListNoDup. vm_compute.
    repeat constructor; simpl; intuition discriminate. }
  rewrite (evo_without_operators_is_identity demo_batch demo_batch bootstrap Hu).
  eexists. split; reflexivity.
Defined.

(** ** The two batch loops *)

Lemma sd_set_names name v sd :
  name ∈ map fst sd -> map fst (sd_set name v sd) = map fst sd.
Proof.
  induction sd as [|[n t] sd IH]; intros Hin; simpl in *.
  - by apply elem_of_nil in Hin.
  - destruct (String.eqb_spec n name) as [->|Hne]; [done|].
    simpl. f_equal. apply IH.
    apply elem_of_cons in Hin as [Hin|Hin]; [congruence|done].
Qed.

Lemma batch_mutation_loop_names names bx y op s y' s' :
  (forall n, n ∈ names -> n ∈ map fst y) ->
  batch_mutation_loop names bx y op s = Ok (y', s') ->
  map fst y' = map fst y.
Proof.
  revert y s. induction names as [|n names IH]; intros y s Hin; simpl.
  - by intros [= <- <-].
  - rewrite ?tensor_selected_always.
    destruct (sd_get n bx) as [tx|]; [|discriminate].
    intros H. apply bind_Ok in H as (ty & s1 & _ & H).
    apply IH in H.
    + rewrite H. apply sd_set_names, Hin. left.
    + intros m Hm. rewrite sd_set_names by (apply Hin; left).
      apply Hin. by right.
Qed.

Lemma batch_crossover_loop_names names bx by_ bz op s z' s' :
  (forall n, n ∈ names -> n ∈ map fst bz) ->
  batch_crossover_loop names bx by_ bz op s = Ok (z', s') ->
  map fst z' = map fst bz /\ forall n, n ∈ names -> is_Some (sd_get n by_).
Proof.
  revert bz s. induction names as [|n names IH]; intros bz s Hin; simpl.
  - intros [= <- <-]. split; [done|]. intros n Hn. by apply elem_of_nil in Hn.
  - rewrite ?tensor_selected_always.
    destruct (sd_get n bx) as [tx|]; [|discriminate].
    destruct (sd_get n by_) as [ty|] eqn:Ey; [|discriminate].
    intros H. apply bind_Ok in H as (tz & s1 & _ & H).
    apply IH in H as [Hn Hy].
    + split.
      * rewrite Hn. apply sd_set_names, Hin. left.
      * intros m Hm. apply elem_of_cons in Hm as [->|Hm]; [by rewrite Ey|].
        by apply Hy.
    + intros m Hm. rewrite sd_set_names by (apply Hin; left).
      apply Hin. by right.
Qed.

(** X11.  Neither batch loop adds, drops or reorders a tensor: a child
    state dict handed back by [batch_mutation] or [batch_crossover] has
    exactly the names of the X state dict, in the same order. *)
Theorem batch_loops_keep_names x y op s :
  (forall z s', batch_mutation x op s = Ok (z, s') -> map fst z = map fst x) /\
  (forall z s', batch_crossover x y op s = Ok (z, s') -> map fst z = map fst x).
Proof.
  split; intros z s' H.
  - eapply batch_mutation_loop_names; [|exact H]. auto.
  - unfold batch_crossover in H.
    destruct (batch_crossover_loop_names _ _ _ _ _ _ _ _ (fun n Hn => Hn) H)
      as [Hn _].
    exact Hn.
Qed.

Lemma batch_crossover_loop_missing names bx by_ bz op s name :
  name ∈ names -> sd_get name by_ = None ->
  exists e, batch_crossover_loop names bx by_ bz op s = Raise e.
Proof.
  revert bz s. induction names as [|n names IH]; intros bz s Hin Hnone.
  - by apply elem_of_nil in Hin.
  - simpl. rewrite ?tensor_selected_always.
    destruct (sd_get n bx) as [tx|]; [|by exists KeyError].
    destruct (sd_get n by_) as [ty|] eqn:Ey; [|by exists KeyError].
    apply elem_of_cons in Hin as [->|Hin]; [congruence|].
    unfold bind. destruct (call_crossover op tx ty s) as [[tz s1]|e].
    + by apply IH.
    + by exists e.
Qed.

(** X12.  [batch_crossover] raises whenever the Y state dict lacks one
    of the tensors of X, and it raises [KeyError] before reading any
    random sample when the missing tensor is the first one of X. *)
Theorem batch_crossover_missing_tensor x y op s name :
  name ∈ map fst x -> sd_get name y = None ->
  (exists e, batch_crossover x y op s = Raise e) /\
  (head (map fst x) = Some name -> batch_crossover x y op s = Raise KeyError).
Proof.
  intros Hin Hnone. split.
  - by eapply batch_crossover_loop_missing.
  - unfold batch_crossover. destruct x as [|[n t] x]; [discriminate|].
    simpl. intros [= ->]. rewrite ?tensor_selected_always, String.eqb_refl.
    by rewrite Hnone.
Qed.

Lemma batch_crossover_missing_tensor_witness :
  let s := bare_operator default_hyperparams (constant_gen 1 (1 # 4)) in
  let y := [("layers.0.weight"%string, Tensor [1; 2] [0; 0]%Q)] in
  sd_get "layers.0.bias" y = None /\
  exists e, batch_crossover (demo_policy 1) y "iso_dd" s = Raise e.
Proof.
  intros s y. split; [reflexivity|].
  apply (batch_crossover_missing_tensor (demo_policy 1) y "iso_dd" s
           "layers.0.bias"%string).
  - right. left.
  - reflexivity.
Defined.

(** ** [gaussian_mutation]: full rate and bounds *)

Lemma filter_seq_all (P : nat -> bool) k :
  (forall i, i < k -> P i = true) -> List.filter P (seq 0 k) = seq 0 k.
Proof.
  intros H. apply forallb_filter_id. apply forallb_forall.
  intros i Hi. apply in_seq in Hi. apply H. lia.
Qed.

(** X13.  With [mutation_rate] at 1 or above every element is
    perturbed: on a tensor of rank 1 to 3 each element receives its own
    scaled normal sample, the samples being read in row-major order, one
    per element, before the optional clamp. *)
Theorem gaussian_mutation_full_rate s x :
  wf_tensor x -> 1 <= length (shape x) <= 3 ->
  (1 <= mutation_rate (hyper s))%Q ->
  (forall i, (sample (torch_uniform (gen s)) i < 1)%Q) ->
  exists y s',
    gaussian_mutation x s = Ok (y, s') /\
    cursor (torch_normal (gen s')) =
      cursor (torch_normal (gen s)) + length (data x) /\
    forall k xk, data x !! k = Some xk ->
      data y !! k =
        Some (clamp_or_keep (hyper s)
                (xk + sigma (hyper s)
                      * sample (torch_normal (gen s))
                               (cursor (torch_normal (gen s)) + k))%Q).
Proof.
  intros Hwf Hrank Hrate Hunif.
  set (m := mask_samples s (length (data x))).
  assert (Hm : length m = length (data x)).
  { unfold m, mask_samples. by rewrite length_map, length_seq. }
  assert (Hsel : forall i, Qltb (nth i m 0%Q) (mutation_rate (hyper s)) = true).
  { intros i. apply Qltb_lt. eapply Qlt_le_trans; [|exact Hrate].
    destruct (Nat.lt_ge_cases i (length m)) as [Hi|Hi].
    - unfold m, mask_samples in *. rewrite length_map, length_seq in Hi.
      rewrite (nth_indep _ 0%Q (sample (torch_uniform (gen s)) 0))
        by (by rewrite length_map, length_seq).
      rewrite map_nth. apply Hunif.
    - rewrite nth_overflow by exact Hi. reflexivity. }
  assert (Hpos : mask_positions m (mutation_rate (hyper s))
                 = seq 0 (length (data x))).
  { unfold mask_positions. rewrite Hm. apply filter_seq_all. auto. }
  eexists _, _. split; [apply gaussian_mutation_eq; assumption|].
  fold m. rewrite Hpos, length_seq.
  split; [reflexivity|].
  intros k xk Hk.
  assert (Hlt : k < length (data x)) by (eapply lookup_lt_Some; eauto).
  rewrite clamp_or_return_data, lookup_map. simpl.
  erewrite (index_put_at _ _ _ k k); [reflexivity | apply NoDup_seq | | | exact Hlt].
  - by apply lookup_seq_lt.
  - rewrite lookup_zip_with, !lookup_map, !lookup_seq_lt by exact Hlt.
    simpl. by rewrite (nth_lookup_Some _ _ _ _ Hk).
Qed.

Lemma gaussian_mutation_full_rate_witness :
  let s := bare_operator (clamped_hyperparams PyFalse PyFalse 1)
                         (constant_gen 2 (1 # 4)) in
  exists y s',
    gaussian_mutation (Tensor [3] [1; 2; 3]%Q) s = Ok (y, s') /\
    data y !! 2 = Some (3 + 1 * 2)%Q.
Proof.
  intros s.
  assert (Hwf : wf_tensor (Tensor [3] [1; 2; 3]%Q)) by reflexivity.
  assert (Hrank : 1 <= length (shape (Tensor [3] [1; 2; 3]%Q)) <= 3)
    by (simpl; lia).
  assert (Hrate : (1 <= mutation_rate (hyper s))%Q) by discriminate.
  assert (Hunif : forall i, (sample (torch_uniform (gen s)) i < 1)%Q)
    by (intros i; reflexivity).
  destruct (gaussian_mutation_full_rate s _ Hwf Hrank Hrate Hunif)
    as (y & s' & E & _ & Hp).
  exists y, s'. split; [exact E|]. exact (Hp 2 3%Q eq_refl).
Defined.

(** X14.  As soon as one clamp bound is truthy, whatever
    [gaussian_mutation] returns lies within the bounds (a [False] bound
    counting as 0), provided they are ordered: this holds for every
    element, mutated or not, and for every rank the method accepts. *)
Theorem gaussian_mutation_within_bounds s x y s' :
  gaussian_mutation x s = Ok (y, s') ->
  truthy (self_max (hyper s)) = true \/ truthy (self_min (hyper s)) = true ->
  (as_number (self_min (hyper s)) <= as_number (self_max (hyper s)))%Q ->
  forall v, v ∈ data y ->
    (as_number (self_min (hyper s)) <= v)%Q /\
    (v <= as_number (self_max (hyper s)))%Q.
Proof.
  intros H Hor Hle v Hv. unfold gaussian_mutation in H.
  apply bind_Ok in H as (self & s0 & Hget & H). injection Hget as <- <-.
  apply bind_Ok in H as (m & s1 & _ & H).
  destruct (length (shape x)) as [|r]; [discriminate|].
  apply bind_Ok in H as (delta & s2 & _ & H).
  apply bind_Ok in H as (y0 & s3 & _ & H).
  injection H as <- <-.
  rewrite clamp_or_return_data in Hv.
  apply list_elem_of_In, in_map_iff in Hv as (w & <- & _).
  unfold clamp_or_keep, unclamped.
  destruct Hor as [-> | ->]; simpl; rewrite ?andb_false_r;
    by apply clamp_elt_bounds.
Qed.

Lemma gaussian_mutation_within_bounds_witness :
  let s := bare_operator (clamped_hyperparams (PyNum (-1)) (PyNum 1) (1 # 2))
                         (constant_gen 3 (1 # 4)) in
  let r := gaussian_mutation (Tensor [2] [0; 7]%Q) s in
  let y := match r with
           | Ok (y, _) => y
           | Raise _ => Tensor [] []
           end in
  r = Ok (y, state_of s r) /\
  forall v, v ∈ data y -> (-1 <= v)%Q /\ (v <= 1)%Q.
Proof.
  intros s r y.
  assert (Hr : gaussian_mutation (Tensor [2] [0; 7]%Q) s = Ok (y, state_of s r))
    by (vm_compute; reflexivity).
  split; [exact Hr|].
  apply (gaussian_mutation_within_bounds s _ y _ Hr).
  - left. reflexivity.
  - discriminate.
Defined.

(** ** [iso_dd] on a parent crossed with itself *)

Lemma clamp_or_keep_Qeq h a b : (a == b)%Q -> (clamp_or_keep h a == clamp_or_keep h b)%Q.
Proof.
  intros E. unfold clamp_or_keep, clamp_elt.
  destruct (unclamped h); [exact E|].
  apply Q.min_compat; [|reflexivity]. apply Q.max_compat; [exact E|reflexivity].
Qed.

(** X15.  When both parents are the same tensor, as happens when a key
    is drawn for X and for Y, the line term of [iso_dd] vanishes: every
    element of the child equals the parent's element plus its own
    isotropic sample, clamped as configured, whatever the line
    coefficient drawn. *)
Theorem iso_dd_same_parent s x :
  exists z s',
    iso_dd x x s = Ok (z, s') /\
    shape z = shape x /\
    forall k xk, data x !! k = Some xk ->
      exists v, data z !! k = Some v /\
        (v == clamp_or_keep (hyper s)
                (xk + iso_sigma (hyper s)
                      * sample (torch_normal (gen s))
                               (cursor (torch_normal (gen s)) + k)))%Q.
Proof.
  unfold iso_dd, bind, get, normal_, np_random_normal, ret, draw. simpl.
  rewrite bool_decide_true by reflexivity.
  eexists _, _. split; [reflexivity|].
  split; [by rewrite clamp_or_return_shape|].
  intros k xk Hk.
  assert (Hlt : k < length (data x)) by (eapply lookup_lt_Some; eauto).
  rewrite clamp_or_return_data, lookup_map. simpl.
  erewrite iso_line_lookup; [|exact Hk| |exact Hk].
  2:{ rewrite !lookup_map, lookup_seq_lt by exact Hlt. reflexivity. }
  simpl. eexists. split; [reflexivity|].
  apply clamp_or_keep_Qeq. ring.
Qed.

(** ** Construction with the names the class implements *)

(** X16.  Construction succeeds, whatever the base class provides,
    whenever no stage is configured with one of the three recognised
    names the class has no method for.  The object then starts in
    bootstrap mode with a zero counter, no signal emitted and the free
    keys it was given; a stage is resolved to its configured name if the
    name is recognised and disabled otherwise, with one warning per
    disabled stage, crossover first. *)
Theorem init_succeeds_on_implemented_names inherited c actors elites cache
    queue free oid kw g l :
  Cfg.crossover_op c <> "sbx"%string ->
  Cfg.mutation_op c <> "polynomial_mutation"%string ->
  Cfg.mutation_op c <> "uniform_mutation"%string ->
  exists s,
    __init__ inherited c actors elites cache queue free oid kw g l = Ok s /\
    crossover_op s = stage_of recognised_crossover (Cfg.crossover_op c) /\
    mutation_op s = stage_of recognised_mutation (Cfg.mutation_op c) /\
    log s = l ++ stage_warnings c /\
    init_mode s = true /\ queued_for_eval s = 0%Z /\ signals s = [] /\
    free_policy_keys s = free /\ eval_cache s = cache /\ hyper s = kw.
Proof.
  intros Hc Hp Hu.
  unfold __init__, getattr, stage_of, stage_warnings, recognised_crossover,
    recognised_mutation.
  destruct (bool_decide (Cfg.crossover_op c ∈ ["sbx"; "iso_dd"]%string)) eqn:Ec.
  - apply bool_decide_eq_true in Ec.
    assert (Hiso : Cfg.crossover_op c = "iso_dd"%string).
    { apply elem_of_cons in Ec as [Ec|Ec]; [congruence|].
      apply elem_of_cons in Ec as [Ec|Ec]; [exact Ec|].
      by apply elem_of_nil in Ec. }
    rewrite Hiso.
    rewrite bool_decide_true
      by (apply elem_of_app; left; apply list_elem_of_In; simpl; tauto).
    destruct (bool_decide (Cfg.mutation_op c ∈ _)) eqn:Em.
    + apply bool_decide_eq_true in Em.
      assert (Hg : Cfg.mutation_op c = "gaussian_mutation"%string).
      { apply elem_of_cons in Em as [Em|Em]; [congruence|].
        apply elem_of_cons in Em as [Em|Em]; [exact Em|].
        apply elem_of_cons in Em as [Em|Em]; [congruence|].
        by apply elem_of_nil in Em. }
      rewrite Hg.
      rewrite bool_decide_true
        by (apply elem_of_app; left; apply list_elem_of_In; simpl; tauto).
      eexists. split; [reflexivity|]. simpl.
      repeat split; try reflexivity; symmetry; apply app_nil_r.
    + eexists. split; [reflexivity|]. simpl. tauto.
  - destruct (bool_decide (Cfg.mutation_op c ∈ _)) eqn:Em.
    + apply bool_decide_eq_true in Em.
      assert (Hg : Cfg.mutation_op c = "gaussian_mutation"%string).
      { apply elem_of_cons in Em as [Em|Em]; [congruence|].
        apply elem_of_cons in Em as [Em|Em]; [exact Em|].
        apply elem_of_cons in Em as [Em|Em]; [congruence|].
        by apply elem_of_nil in Em. }
      rewrite Hg.
      rewrite bool_decide_true
        by (apply elem_of_app; left; apply list_elem_of_In; simpl; tauto).
      eexists. split; [reflexivity|]. simpl.
      repeat split; try reflexivity; symmetry; apply app_nil_r.
    + eexists. split; [reflexivity|]. simpl. rewrite <- app_assoc. tauto.
Qed.

Lemma init_succeeds_on_implemented_names_witness :
  exists s,
    __init__ ["connect"; "detach"]%string (small_cfg "iso_dd" "gaussian_mutation")
      [] ∅ [] [] ∅ 1 default_hyperparams (constant_gen 0 0) [] = Ok s /\
    crossover_op s = Some "iso_dd"%string /\
    mutation_op s = Some "gaussian_mutation"%string /\
    log s = [].
Proof.
  destruct (init_succeeds_on_implemented_names
              ["connect"; "detach"]%string
              (small_cfg "iso_dd" "gaussian_mutation")
              [] ∅ [] [] ∅ 1 default_hyperparams (constant_gen 0 0) [])
    as (s & E & Hc & Hm & Hl & _); try discriminate.
  exists s. split; [exact E|]. split; [exact Hc|]. split; [exact Hm | exact Hl].
Defined.

(** * Properties of the behaviour-descriptor wrapper *)

Lemma inject_Z_plus_bool (a : Z) (c : bool) :
  (inject_Z a + BDWrapper.int_of_bool c)%Q
  = inject_Z (a + (if c then 1 else 0)).
Proof.
  destruct c; unfold Qplus, inject_Z; simpl; f_equal; lia.
Qed.

Lemma contacts_cons i e es :
  BDWrapper.contacts i (e :: es) =
  (match BDWrapper.legs e !! i with Some true => 1 | _ => 0 end)
  + BDWrapper.contacts i es.
Proof.
  unfold BDWrapper.contacts. simpl.
  destruct (BDWrapper.legs e !! i) as [[]|]; reflexivity.
Qed.

Lemma contacts_le i es : BDWrapper.contacts i es <= length es.
Proof. unfold BDWrapper.contacts. apply List.filter_length_le. Qed.

(** The accumulator counts contacts, the length counts steps. *)
Lemma steps_accumulate es : forall w a1 a2,
  BDWrapper.behavior_desc_acc w = [inject_Z (Z.of_nat a1); inject_Z (Z.of_nat a2)] ->
  BDWrapper.has_legs w es ->
  exists w' outs,
    BDWrapper.steps w es = Ok (w', outs) /\
    length outs = length es /\
    BDWrapper.ep_length w' = BDWrapper.ep_length w + length es /\
    BDWrapper.behavior_desc_acc w' =
      [inject_Z (Z.of_nat (a1 + BDWrapper.contacts (BDWrapper.leg1_idx w) es));
       inject_Z (Z.of_nat (a2 + BDWrapper.contacts (BDWrapper.leg2_idx w) es))] /\
    BDWrapper.leg1_idx w' = BDWrapper.leg1_idx w /\
    BDWrapper.leg2_idx w' = BDWrapper.leg2_idx w /\
    BDWrapper.behavior_dim w' = BDWrapper.behavior_dim w.
Proof.
  induction es as [|e es IH]; intros w a1 a2 Hacc Hlegs.
  - exists w, []. simpl. unfold BDWrapper.contacts. simpl.
    rewrite ?Nat.add_0_r. auto 10.
  - apply Forall_cons in Hlegs as [[[c1 H1] [c2 H2]] Hlegs].
    simpl. unfold BDWrapper.step. rewrite H1, H2, Hacc. simpl.
    rewrite !inject_Z_plus_bool.
    set (b1 := if c1 then 1%Z else 0%Z). set (b2 := if c2 then 1%Z else 0%Z).
    set (n1 := a1 + (if c1 then 1 else 0)).
    set (n2 := a2 + (if c2 then 1 else 0)).
    assert (E1 : (Z.of_nat a1 + b1)%Z = Z.of_nat n1)
      by (unfold b1, n1; destruct c1; lia).
    assert (E2 : (Z.of_nat a2 + b2)%Z = Z.of_nat n2)
      by (unfold b2, n2; destruct c2; lia).
    rewrite E1, E2.
    destruct (BDWrapper.done e).
    + match goal with
      | |- context [BDWrapper.steps ?w1 es] =>
          destruct (IH w1 n1 n2 eq_refl Hlegs)
            as (w' & outs & E & Hl & Hep & Ha & Hi1 & Hi2 & Hd)
      end.
      rewrite E. eexists _, _. split; [reflexivity|]. simpl in *.
      rewrite !contacts_cons, H1, H2.
      split; [by rewrite Hl|]. split; [lia|].
      split; [|auto].
      rewrite Ha. unfold n1, n2.
      f_equal; [|f_equal]; do 2 f_equal; destruct c1, c2; lia.
    + match goal with
      | |- context [BDWrapper.steps ?w1 es] =>
          destruct (IH w1 n1 n2 eq_refl Hlegs)
            as (w' & outs & E & Hl & Hep & Ha & Hi1 & Hi2 & Hd)
      end.
      rewrite E. eexists _, _. split; [reflexivity|]. simpl in *.
      rewrite !contacts_cons, H1, H2.
      split; [by rewrite Hl|]. split; [lia|].
      split; [|auto].
      rewrite Ha. unfold n1, n2.
      f_equal; [|f_equal]; do 2 f_equal; destruct c1, c2; lia.
Qed.

Lemma steps_app es1 : forall w es2,
  BDWrapper.steps w (es1 ++ es2) =
  match BDWrapper.steps w es1 with
  | Ok (w1, o1) =>
      match BDWrapper.steps w1 es2 with
      | Ok (w2, o2) => Ok (w2, o1 ++ o2)
      | Raise ex => Raise ex
      end
  | Raise ex => Raise ex
  end.
Proof.
  induction es1 as [|e es1 IH]; intros w es2; simpl.
  - destruct (BDWrapper.steps w es2) as [[w2 o2]|]; reflexivity.
  - destruct (BDWrapper.step w e) as [[w1 out]|]; [|reflexivity].
    rewrite IH. destruct (BDWrapper.steps w1 es1) as [[w2 o1]|]; [|reflexivity].
    destruct (BDWrapper.steps w2 es2) as [[w3 o2]|]; reflexivity.
Qed.

Lemma contacts_app i es1 es2 :
  BDWrapper.contacts i (es1 ++ es2)
  = BDWrapper.contacts i es1 + BDWrapper.contacts i es2.
Proof. unfold BDWrapper.contacts. by rewrite List.filter_app, length_app. Qed.

Lemma fraction_in_unit_interval c n :
  c <= n -> 0 < n ->
  (0 <= inject_Z (Z.of_nat c) / inject_Z (Z.of_nat n))%Q /\
  (inject_Z (Z.of_nat c) / inject_Z (Z.of_nat n) <= 1)%Q.
Proof.
  intros Hc Hn.
  assert (Hpos : (0 < inject_Z (Z.of_nat n))%Q).
  { change 0%Q with (inject_Z 0). rewrite <- Zlt_Qlt. lia. }
  split.
  - apply Qle_shift_div_l; [exact Hpos|]. rewrite Qmult_0_l.
    change 0%Q with (inject_Z 0). rewrite <- Zle_Qle. lia.
  - apply Qle_shift_div_r; [exact Hpos|]. rewrite Qmult_1_l.
    rewrite <- Zle_Qle. lia.
Qed.

(** X17.  After a reset, whatever the wrapper went through before, the
    descriptor published at a step that ends the episode is, for each of
    the two legs read, the number of steps since the reset during which
    the leg touched the ground divided by the number of steps since the
    reset.  It is stored in [behavior_desc], written into [info] under
    "desc", and both components lie between 0 and 1. *)
Theorem descriptor_is_contact_fraction w obs0 es e :
  BDWrapper.behavior_dim w = 2 ->
  BDWrapper.has_legs w (es ++ [e]) ->
  BDWrapper.done e = true ->
  let n := S (length es) in
  let frac i := (inject_Z (Z.of_nat (BDWrapper.contacts i (es ++ [e])))
                 / inject_Z (Z.of_nat n))%Q in
  let desc := [frac (BDWrapper.leg1_idx w); frac (BDWrapper.leg2_idx w)] in
  exists w' outs,
    BDWrapper.steps (fst (BDWrapper.reset w obs0)) (es ++ [e]) = Ok (w', outs) /\
    last outs = Some (BDWrapper.obs e, BDWrapper.rew e, true,
                      <["desc"%string := desc]> (BDWrapper.info e)) /\
    BDWrapper.behavior_desc w' = desc /\
    BDWrapper.ep_length w' = n /\
    Forall (fun v => (0 <= v)%Q /\ (v <= 1)%Q) desc.
Proof.
  intros Hdim Hlegs Hdone n frac desc.
  apply Forall_app in Hlegs as [Hes He].
  apply Forall_cons in He as [[[c1 H1] [c2 H2]] _].
  set (w0 := fst (BDWrapper.reset w obs0)).
  assert (Hacc0 : BDWrapper.behavior_desc_acc w0
                  = [inject_Z (Z.of_nat 0); inject_Z (Z.of_nat 0)]).
  { unfold w0. simpl. by rewrite Hdim. }
  destruct (steps_accumulate es w0 0 0 Hacc0 Hes)
    as (w1 & outs & E & Hl & Hep & Ha & Hi1 & Hi2 & Hd).
  simpl in Hep, Ha, Hi1, Hi2.
  rewrite steps_app, E. simpl. unfold BDWrapper.step.
  rewrite Hi1, Hi2, H1, H2, Ha, Hdone. simpl.
  rewrite !inject_Z_plus_bool.
  assert (Hc : forall i (c : bool), BDWrapper.legs e !! i = Some c ->
             (Z.of_nat (BDWrapper.contacts i es) + (if c then 1 else 0))%Z
             = Z.of_nat (BDWrapper.contacts i (es ++ [e]))).
  { intros i c Hi. rewrite contacts_app. unfold BDWrapper.contacts at 3.
    simpl. rewrite Hi. destruct c; simpl; lia. }
  rewrite (Hc _ _ H1), (Hc _ _ H2), Hep.
  eexists _, _. split; [reflexivity|].
  split; [by rewrite last_snoc|].
  split; [reflexivity|]. split; [reflexivity|].
  unfold desc, frac, n.
  constructor; [|constructor; [|constructor]];
    (apply fraction_in_unit_interval; [|lia]);
    (etransitivity; [apply contacts_le|]; rewrite length_app; simpl; lia).
Qed.

Lemma descriptor_is_contact_fraction_witness :
  let es := [ BDWrapper.walker_step true false false;
              BDWrapper.walker_step true true false;
              BDWrapper.walker_step false true false ] in
  let e := BDWrapper.walker_step true false true in
  exists w' outs,
    BDWrapper.steps (fst (BDWrapper.reset (BDWrapper.__init__ 2) []))
                    (es ++ [e]) = Ok (w', outs) /\
    BDWrapper.behavior_desc w'
    = [(inject_Z 3 / inject_Z 4)%Q; (inject_Z 2 / inject_Z 4)%Q].
Proof.
  intros es e.
  assert (Hdim : BDWrapper.behavior_dim (BDWrapper.__init__ 2) = 2)
    by reflexivity.
  assert (Hlegs : BDWrapper.has_legs (BDWrapper.__init__ 2) (es ++ [e])).
  { repeat constructor; simpl; eauto. }
  assert (Hdone : BDWrapper.done e = true) by reflexivity.
  pose proof (descriptor_is_contact_fraction (BDWrapper.__init__ 2) [] es e
                Hdim Hlegs Hdone) as H.
  cbv zeta in H. destruct H as (w' & outs & E & _ & Hd & _).
  exists w', outs. split; [exact E|]. rewrite Hd. reflexivity.
Defined.

(** X18.  The accumulator takes exactly two contact flags per step: a
    wrapper built with a [behavior_dim] other than 2 raises
    [ValueError] on its first step, fresh or after a reset, as soon as
    the environment has the two legs; and without a leg at position 1
    or 3 the step raises [IndexError] before anything is counted. *)
Theorem step_needs_two_dimensions d obs0 e :
  (d <> 2 -> 4 <= length (BDWrapper.legs e) ->
   BDWrapper.step (BDWrapper.__init__ d) e = Raise ValueError /\
   BDWrapper.step (fst (BDWrapper.reset (BDWrapper.__init__ d) obs0)) e
   = Raise ValueError) /\
  (length (BDWrapper.legs e) < 4 ->
   BDWrapper.step (BDWrapper.__init__ d) e = Raise IndexError).
Proof.
  split.
  - intros Hd Hlen.
    destruct (lookup_lt_is_Some_2 (BDWrapper.legs e) 1 ltac:(lia)) as [c1 H1].
    destruct (lookup_lt_is_Some_2 (BDWrapper.legs e) 3 ltac:(lia)) as [c2 H2].
    unfold BDWrapper.step, BDWrapper.reset, BDWrapper.__init__. simpl.
    rewrite H1, H2.
    destruct d as [|[|[|d]]]; [| |lia|]; split; reflexivity.
  - intros Hlen. unfold BDWrapper.step, BDWrapper.__init__. simpl.
    assert (H3 : BDWrapper.legs e !! 3 = None) by (apply lookup_ge_None; lia).
    rewrite H3. by destruct (BDWrapper.legs e !! 1).
Qed.
